(** * vspeech.recording: energy-based utterance segmentation and its worker

    A shallow embedding of [src/vspeech/recording.py]:
    - [get_dbfs], the loudness of a fragment of PCM bytes;
    - [recording_task_loop], the async generator that cuts the stream of
      device reads into utterances (states "waiting", "speaking", "stopped");
    - [recording_worker], the task that owns the device stream, publishes the
      utterances and reacts to the resume gate and to cancellation.

    Conventions.  Python numbers that are not integers (seconds, decibels) are
    read as exact rationals [Q]; the value [float("-inf")] is a constructor of
    its own.  [audioop.rms] and [math.log] belong to the Python standard
    library, not to the repository: the loop is written over any
    implementation of them, and a concrete [audioop_rms] is given further
    down for the statements about silence and for the worked examples. *)

From Stdlib Require Import List ZArith QArith Qround Bool Lia Lqa.
From Stdlib Require Strings.Byte Strings.String.
Import ListNotations.
Local Open Scope Z_scope.

(** ** Numbers *)

(** [x < y] on rationals, as a boolean. *)
Definition Qlt_bool (x y : Q) : bool := negb (Qle_bool y x).

(** What [get_dbfs] returns: [float("-inf")] or a finite number of decibels. *)
Inductive loudness : Type :=
| NegInf
| Db (x : Q).

(** [l > thr] for a finite [thr]: negative infinity is above nothing. *)
Definition loudness_gt (l : loudness) (thr : Q) : bool :=
  match l with
  | NegInf => false
  | Db x => Qlt_bool thr x
  end.

(** ** Configuration *)

(** Modelled from the spec: [vspeech/config.py] with the class
    [RecordingConfig] is not among the sources.  The record has the fields
    that [recording.py] reads from it (spec, section 6: sample format, channel
    count, sample rate, frames per read, [record_interval_sec],
    [silence_threshold], [max_recording_sec]). *)
Record RecordingConfig : Type := {
  format : Z;
  channels : Z;
  rate : Z;
  chunk : Z;
  record_interval_sec : Q;
  silence_threshold : Q;
  max_recording_sec : Q
}.

(** The three values of the variable [status]. *)
Inductive Status : Type :=
| st_waiting
| st_speaking
| st_stopped.

Definition option_list {A : Type} (o : option A) : list A :=
  match o with
  | Some a => [a]
  | None => []
  end.

(** ** The segmentation loop *)

Section Loop.

(** The loop only concatenates the bytes it reads and hands them to
    [audioop.rms]; it is written over any type of byte. *)
Context {byte : Type}.

(** [audioop.rms(fragment, width)] and [math.log(x, base)]. *)
Variable rms : list byte -> Z -> Z.
Variable log : Q -> Q -> Q.

(** recording.py, lines 57-62. *)
Definition get_dbfs (interval_frames : list byte) (sample_width : Z) : loudness :=
  let rms_value := rms interval_frames sample_width in
  let max_possible_val := (inject_Z (2 ^ (sample_width * 8)) / 2)%Q in
  if rms_value =? 0 then NegInf
  else Db (20 * log (inject_Z rms_value / max_possible_val) 10)%Q.

(** The local variables of [recording_task_loop], lines 68-73. *)
Record loop_state : Type := {
  interval_frame_count : Z;
  interval_frames : list byte;
  speaking_frames : list byte;
  last_interval_frames : list byte;
  total_speaking_seconds : Q;
  status : Status
}.

Definition init_state : loop_state :=
  {| interval_frame_count := 0;
     interval_frames := [];
     speaking_frames := [];
     last_interval_frames := [];
     total_speaking_seconds := 0%Q;
     status := st_waiting |}.

Variable config : RecordingConfig.
Variable sample_width : Z.

(** Line 79: [interval_frame_count >= config.rate * config.record_interval_sec]. *)
Definition interval_due (count : Z) : bool :=
  Qle_bool (inject_Z (rate config) * record_interval_sec config) (inject_Z count).

(** Lines 88 and 94:
    [not speaking or config.max_recording_sec < total_speaking_seconds]. *)
Definition should_stop (speaking : bool) (total : Q) : bool :=
  negb speaking || Qlt_bool (max_recording_sec config) total.

(** Lines 80-104: the decision taken on a completed interval whose bytes
    are [frames], with the assignments of lines 102-104 done in every
    branch.  The second component is the value yielded on line 96. *)
Definition interval_decision (s : loop_state) (frames : list byte)
  : loop_state * option (list byte) :=
  let speaking :=
    loudness_gt (get_dbfs frames sample_width) (silence_threshold config) in
  match status s with
  | st_waiting =>
      if speaking then
        ({| interval_frame_count := 0;
            interval_frames := [];
            speaking_frames :=
              speaking_frames s ++ (last_interval_frames s ++ frames);
            last_interval_frames := frames;
            total_speaking_seconds := total_speaking_seconds s;
            status := st_speaking |}, None)
      else
        ({| interval_frame_count := 0;
            interval_frames := [];
            speaking_frames := speaking_frames s;
            last_interval_frames := frames;
            total_speaking_seconds := total_speaking_seconds s;
            status := st_waiting |}, None)
  | st_speaking =>
      let speaking_frames' := speaking_frames s ++ frames in
      let total := (total_speaking_seconds s + record_interval_sec config)%Q in
      ({| interval_frame_count := 0;
          interval_frames := [];
          speaking_frames := speaking_frames';
          last_interval_frames := frames;
          total_speaking_seconds := total;
          status := if should_stop speaking total then st_stopped
                    else st_speaking |}, None)
  | st_stopped =>
      let speaking_frames' := speaking_frames s ++ frames in
      let total := (total_speaking_seconds s + record_interval_sec config)%Q in
      if should_stop speaking total then
        (* yield speaking_frames; status = "waiting"; speaking_frames = b"";
           interval_frames = b""; then last_interval_frames = interval_frames *)
        ({| interval_frame_count := 0;
            interval_frames := [];
            speaking_frames := [];
            last_interval_frames := [];
            total_speaking_seconds := total;
            status := st_waiting |}, Some speaking_frames')
      else
        ({| interval_frame_count := 0;
            interval_frames := [];
            speaking_frames := speaking_frames';
            last_interval_frames := frames;
            total_speaking_seconds := total;
            status := if speaking then st_speaking else st_stopped |}, None)
  end.

(** Lines 75-104: one turn of the [while] loop on the bytes [in_data]
    returned by [stream.read]. *)
Definition recording_task_step (s : loop_state) (in_data : list byte)
  : loop_state * option (list byte) :=
  let count := interval_frame_count s + chunk config in
  let frames := interval_frames s ++ in_data in
  if interval_due count then interval_decision s frames
  else
    ({| interval_frame_count := count;
        interval_frames := frames;
        speaking_frames := speaking_frames s;
        last_interval_frames := last_interval_frames s;
        total_speaking_seconds := total_speaking_seconds s;
        status := status s |}, None).

(** The loop run on the successive results of [stream.read] while the
    stream is active: the final variables and the utterances yielded, in
    order. *)
Fixpoint run_loop (s : loop_state) (reads : list (list byte))
  : loop_state * list (list byte) :=
  match reads with
  | [] => (s, [])
  | in_data :: rest =>
      let (s1, y) := recording_task_step s in_data in
      let (s2, ys) := run_loop s1 rest in
      (s2, option_list y ++ ys)
  end.

Definition recording_task_loop (reads : list (list byte))
  : loop_state * list (list byte) :=
  run_loop init_state reads.

End Loop.

(** ** [audioop.rms] on bytes *)

(** The function of CPython's [audioop] module: the fragment is cut into
    samples of [width] bytes, each a signed little-endian integer; the result
    is the integer part of the square root of the mean of the squares, and 0
    for the empty fragment.  (CPython rejects a width outside 1..4 and a
    fragment that is not a whole number of samples; the recorder passes
    [get_sample_size(format)] and whole reads.) *)
Definition byte_value (b : Byte.byte) : Z := Z.of_N (Byte.to_N b).

Fixpoint unsigned_le (bs : list Byte.byte) : Z :=
  match bs with
  | [] => 0
  | b :: rest => byte_value b + 256 * unsigned_le rest
  end.

Definition signed_le (bs : list Byte.byte) : Z :=
  let u := unsigned_le bs in
  let m := 2 ^ (8 * Z.of_nat (length bs)) in
  if 2 * u <? m then u else u - m.

(** [raw_samples w k cur fragment]: the samples of [fragment], where [cur]
    holds the bytes of the sample being read and [k] is the number of bytes
    it still lacks. *)
Fixpoint raw_samples (w k : nat) (cur fragment : list Byte.byte) : list Z :=
  match fragment with
  | [] => []
  | b :: rest =>
      match k with
      | S (S k') => raw_samples w (S k') (cur ++ [b]) rest
      | _ => signed_le (cur ++ [b]) :: raw_samples w w [] rest
      end
  end.

Definition sum_squares (samples : list Z) : Z :=
  fold_right (fun v acc => v * v + acc) 0 samples.

Definition audioop_rms (fragment : list Byte.byte) (width : Z) : Z :=
  match fragment with
  | [] => 0
  | _ =>
      let samples := raw_samples (Z.to_nat width) (Z.to_nat width) [] fragment in
      Z.sqrt (sum_squares samples / (Z.of_nat (length fragment) / width))
  end.

(** ** A computable logarithm for the worked examples

    [floor_log x base] is the integer part (towards minus infinity) of the
    logarithm of [x > 0] in base [base >= 2]; it never exceeds the logarithm,
    and it is exact on the powers of the base, in particular at 1. *)
Fixpoint count_up (fuel : nat) (x base : Q) : Z :=
  match fuel with
  | O => 0
  | S fuel' => if Qle_bool 1 x then 0 else 1 + count_up fuel' (x * base)%Q base
  end.

Fixpoint count_down (fuel : nat) (x base : Q) : Z :=
  match fuel with
  | O => 0
  | S fuel' => if Qle_bool base x then 1 + count_down fuel' (x / base)%Q base else 0
  end.

Definition floor_log (x base : Q) : Q :=
  let fuel := S (Z.to_nat (Z.log2 (Z.max (Qnum x) (Zpos (Qden x))))) in
  if Qle_bool 1 x then inject_Z (count_down fuel x base)
  else inject_Z (- count_up fuel x base).

(** ** The worker *)

(** Modelled from the spec: [vspeech/shared_context.py] ([EventType],
    [SoundOutput], [WorkerOutput]) is not among the sources; an emitted
    utterance carries the bytes, the sample rate, the sample format and the
    channel count, tagged as coming from the recording stage (spec,
    section 6). *)
Inductive EventType : Type :=
| recording.

Record SoundOutput {byte : Type} : Type := {
  sound_data : list byte;
  sound_rate : Z;
  sound_format : Z;
  sound_channels : Z
}.
Arguments SoundOutput : clear implicits.

Record WorkerOutput {byte : Type} : Type := {
  source : EventType;
  sound : SoundOutput byte;
  text : option String.string
}.
Arguments WorkerOutput : clear implicits.

(** What the worker does to the outside, in the order it does it: opening
    and closing the device stream of a session, a completed [stream.read],
    and a successful [put_nowait]. *)
Inductive event {byte : Type} : Type :=
| EvOpen (session : nat)
| EvRead (session : nat)
| EvPut (output : WorkerOutput byte)
| EvClose (session : nat).
Arguments event : clear implicits.

(** The exceptions that leave [recording_worker]: the [TypeError] of line 41
    (no input device found), [CancelledError], and the [QueueFull] of
    [put_nowait]. *)
Inductive exception : Type :=
| TypeError
| CancelledError
| QueueFull.

(** What the outside answers during one turn of the worker: whether an
    input device is found, whether the stream is active, whether a
    cancellation is delivered at the suspension point the worker reaches
    ([await to_thread(stream.read, ...)] or [await context.resume.wait()]),
    the bytes read, whether the resume gate is set, and whether the output
    queue is full. *)
Record tick {byte : Type} : Type := {
  device_found : bool;
  stream_active : bool;
  cancel_delivered : bool;
  in_data : list byte;
  resume_set : bool;
  queue_full : bool
}.
Arguments tick : clear implicits.

Section Worker.

Context {byte : Type}.
Variable rms : list byte -> Z -> Z.
Variable log : Q -> Q -> Q.

(** [context.config.recording] and [context.audio.get_sample_size]. *)
Variable config : RecordingConfig.
Variable get_sample_size : Z -> Z.

(** Where the coroutine stands between two turns: at the head of the
    [while True] loop, about to open a stream (line 109); inside the
    [async for] with the generator about to test [stream.is_active()]; at
    [await context.resume.wait()] on line 138; or finished by an
    exception. *)
Inductive control : Type :=
| AtOpen
| AtRead (s : @loop_state byte)
| AtWait
| Raised (e : exception).

Record worker_state : Type := {
  at_point : control;
  session : nat;
  events : list (event byte)
}.

(** Lines 121-130. *)
Definition make_output (frames : list byte) : WorkerOutput byte :=
  {| source := recording;
     sound := {| sound_data := frames;
                 sound_rate := rate config;
                 sound_format := format config;
                 sound_channels := channels config |};
     text := None |}.

(** On entry the worker is about to open its first stream. *)
Definition worker_start : worker_state :=
  {| at_point := AtOpen; session := 0%nat; events := [] |}.

Definition emit (w : worker_state) (c : control) (es : list (event byte))
  : worker_state :=
  {| at_point := c; session := session w; events := events w ++ es |}.

(** One turn of [recording_worker], lines 108-141. *)
Definition worker_step (w : worker_state) (t : tick byte) : worker_state :=
  match at_point w with
  | AtOpen =>
      (* lines 109-110, with lines 40-41 of open_input_stream *)
      if device_found t then emit w (AtRead init_state) [EvOpen (session w)]
      else emit w (Raised TypeError) []
  | AtRead s =>
      if negb (stream_active t) then
        (* the generator is exhausted; line 136, then line 138 *)
        emit w AtWait [EvClose (session w)]
      else if cancel_delivered t then
        (* CancelledError out of line 75; lines 132-135 *)
        emit w (Raised CancelledError) [EvClose (session w)]
      else
        let sample_width := get_sample_size (format config) in
        match recording_task_step rms log config sample_width s (in_data t) with
        | (s', None) => emit w (AtRead s') [EvRead (session w)]
        | (s', Some frames) =>
            if negb (resume_set t) then
              (* lines 117-119: break; line 136, then line 138 *)
              emit w AtWait [EvRead (session w); EvClose (session w)]
            else if queue_full t then
              (* put_nowait raises; no handler catches QueueFull *)
              emit w (Raised QueueFull) [EvRead (session w)]
            else
              emit w (AtRead s')
                [EvRead (session w); EvPut (make_output frames)]
        end
  | AtWait =>
      if cancel_delivered t then
        (* lines 139-141 *)
        emit w (Raised CancelledError) []
      else if resume_set t then
        (* back to line 109, for a new stream and a new generator *)
        {| at_point := AtOpen;
           session := S (session w);
           events := events w |}
      else w
  | Raised _ => w
  end.

Definition worker_run (ticks : list (tick byte)) : worker_state :=
  fold_left worker_step ticks worker_start.

End Worker.

(** ** Worked examples: 16-bit mono PCM *)

(** One frame at full negative scale (sample -32768) and one silent frame. *)
Definition loud_frame : list Byte.byte := [Byte.x00; Byte.x80].
Definition quiet_frame : list Byte.byte := [Byte.x00; Byte.x00].

(** A read of [n] equal frames. *)
Definition read_of (frame : list Byte.byte) (n : nat) : list Byte.byte :=
  concat (repeat frame n).

(** The configuration of the end-to-end scenario, read 800 frames at a time:
    two reads complete an interval of 1600 frames. *)
Definition scenario_config : RecordingConfig :=
  {| format := 8;
     channels := 1;
     rate := 16000;
     chunk := 800;
     record_interval_sec := 1 # 10;
     silence_threshold := -40;
     max_recording_sec := 5 |}.

Definition loud_interval : list (list Byte.byte) :=
  [read_of loud_frame 800; read_of loud_frame 800].
Definition quiet_interval : list (list Byte.byte) :=
  [read_of quiet_frame 800; read_of quiet_frame 800].

(** One interval of silence (the lookback), three loud intervals, two silent
    ones. *)
Definition scenario_reads : list (list Byte.byte) :=
  quiet_interval ++ loud_interval ++ loud_interval ++ loud_interval
    ++ quiet_interval ++ quiet_interval.

(** A small configuration: every read of one frame is an interval of one
    second. *)
Definition unit_config (max_sec : Q) : RecordingConfig :=
  {| format := 8;
     channels := 1;
     rate := 1;
     chunk := 1;
     record_interval_sec := 1;
     silence_threshold := -40;
     max_recording_sec := max_sec |}.

(** Reads for [unit_config]: each is one interval, loud or quiet. *)
Definition loud_read : list Byte.byte := loud_frame.
Definition quiet_read : list Byte.byte := quiet_frame.

(** A first utterance cut by two quiet intervals, one more quiet interval,
    then speech that goes on. *)
Definition two_utterance_reads : list (list Byte.byte) :=
  [loud_read; loud_read; loud_read; quiet_read; quiet_read;
   quiet_read; loud_read; loud_read; loud_read].


(** Turns of the worker: a read that succeeds, with the gate and the queue
    as given (the same turn opens the stream when the worker is about to
    open one); a stream that has stopped; a cancellation. *)
Definition read_tick (data : list Byte.byte) (gate full : bool)
  : tick Byte.byte :=
  {| device_found := true;
     stream_active := true;
     cancel_delivered := false;
     in_data := data;
     resume_set := gate;
     queue_full := full |}.

Definition inactive_tick : tick Byte.byte :=
  {| device_found := true;
     stream_active := false;
     cancel_delivered := false;
     in_data := [];
     resume_set := false;
     queue_full := false |}.

Definition cancel_tick : tick Byte.byte :=
  {| device_found := true;
     stream_active := true;
     cancel_delivered := true;
     in_data := [];
     resume_set := false;
     queue_full := false |}.

(** The stream is opened; an utterance is completed on the third read, when
    the queue is full. *)
Definition full_queue_ticks : list (tick Byte.byte) :=
  [read_tick [] true false;
   read_tick loud_read true false;
   read_tick quiet_read true false;
   read_tick quiet_read true true].

(** The stream is opened, and silence is read, with the gate cleared all
    along. *)
Definition paused_silence_ticks : list (tick Byte.byte) :=
  [read_tick [] false false;
   read_tick quiet_read false false;
   read_tick quiet_read false false;
   read_tick quiet_read false false].

(** Two misconfigurations: reads that count for no frame, and a silence
    threshold at full scale. *)
Definition deaf_config : RecordingConfig :=
  {| format := 8;
     channels := 1;
     rate := 16000;
     chunk := 0;
     record_interval_sec := 1 # 10;
     silence_threshold := -40;
     max_recording_sec := 5 |}.

Definition full_scale_config : RecordingConfig :=
  {| format := 8;
     channels := 1;
     rate := 1;
     chunk := 1;
     record_interval_sec := 1;
     silence_threshold := 0;
     max_recording_sec := 5 |}.

(** The loop and the worker on bytes, with [audioop_rms] and [floor_log]. *)
Definition pcm_loop (config : RecordingConfig) (reads : list (list Byte.byte))
  : loop_state * list (list Byte.byte) :=
  recording_task_loop audioop_rms floor_log config 2 reads.

Definition pcm_sample_size (fmt : Z) : Z := 2.

Definition pcm_worker (config : RecordingConfig) (ticks : list (tick Byte.byte))
  : worker_state :=
  worker_run audioop_rms floor_log config pcm_sample_size ticks.

(** ** Vocabulary of the statements *)

Section Vocabulary.

Context {byte : Type}.
Variable rms : list byte -> Z -> Z.
Variable log : Q -> Q -> Q.
Variable config : RecordingConfig.
Variable sample_width : Z.

(** Line 80: whether an interval with these bytes counts as speech. *)
Definition speaking_on (frames : list byte) : bool :=
  loudness_gt (get_dbfs rms log frames sample_width) (silence_threshold config).

(** The loop stands between two intervals. *)
Definition at_boundary (s : @loop_state byte) : Prop :=
  interval_frame_count s = 0 /\ interval_frames s = [].

(** [n] reads of [config.chunk] frames complete an interval, and fewer do
    not. *)
Definition reads_per_interval (n : nat) : Prop :=
  0 < chunk config /\ (1 <= n)%nat /\
  interval_due config (Z.of_nat n * chunk config) = true /\
  interval_due config ((Z.of_nat n - 1) * chunk config) = false.

(** The loop taken one completed interval at a time: [interval_decision] on
    the bytes of each interval in turn. *)
Fixpoint run_decisions (s : @loop_state byte) (intervals : list (list byte))
  : loop_state * list (list byte) :=
  match intervals with
  | [] => (s, [])
  | frames :: rest =>
      let (s1, y) := interval_decision rms log config sample_width s frames in
      let (s2, ys) := run_decisions s1 rest in
      (s2, option_list y ++ ys)
  end.

(** An interval given by its reads is loud, or quiet. *)
Definition loud (interval : list (list byte)) : Prop :=
  speaking_on (concat interval) = true.
Definition quiet (interval : list (list byte)) : Prop :=
  speaking_on (concat interval) = false.


End Vocabulary.

(** [interleave gaps utts] is [g1 ++ u1 ++ g2 ++ u2 ++ ...]: a text in which
    the [utts] occupy successive ranges that do not overlap, separated by
    the [gaps]. *)
Fixpoint interleave {A : Type} (gaps utts : list (list A)) : list A :=
  match gaps, utts with
  | g :: gs, u :: us => g ++ u ++ interleave gs us
  | _, _ => []
  end.

(** The bytes an unfinished utterance or the lookback hold of the input read
    so far. *)
Definition pending {byte : Type} (s : @loop_state byte) : list byte :=
  match status s with
  | st_waiting => last_interval_frames s ++ interval_frames s
  | _ => speaking_frames s ++ interval_frames s
  end.

(** The input read so far, [consumed], is made of the utterances already
    yielded, in ranges that do not overlap, followed by what the loop still
    holds. *)
Definition covers {byte : Type} (s : @loop_state byte) (consumed : list byte)
  (utts : list (list byte)) : Prop :=
  (status s = st_waiting -> speaking_frames s = []) /\
  exists gaps g,
    length gaps = length utts /\
    consumed = interleave gaps utts ++ g ++ pending s.

(** Counting the openings and closings of a session's stream in the events
    of the worker. *)
Definition is_open {byte : Type} (n : nat) (e : event byte) : bool :=
  match e with
  | EvOpen m => Nat.eqb m n
  | _ => false
  end.

Definition is_close {byte : Type} (n : nat) (e : event byte) : bool :=
  match e with
  | EvClose m => Nat.eqb m n
  | _ => false
  end.

Definition open_count {byte : Type} (n : nat) (es : list (event byte)) : nat :=
  length (filter (is_open n) es).

Definition close_count {byte : Type} (n : nat) (es : list (event byte)) : nat :=
  length (filter (is_close n) es).

(** How often the stream of the current session has been opened and
    closed, by the point the worker has reached: not opened yet at the head
    of the loop or when no device was found; open while the worker reads and
    after [QueueFull]; closed when the worker waits for the gate or has
    raised [CancelledError]. *)
Definition opened_at {byte : Type} (c : @control byte) : nat :=
  match c with
  | AtOpen | Raised TypeError => 0%nat
  | _ => 1%nat
  end.

Definition closed_at {byte : Type} (c : @control byte) : nat :=
  match c with
  | AtWait | Raised CancelledError => 1%nat
  | _ => 0%nat
  end.

(** The streams of earlier sessions were opened once and closed once; the
    stream of the current session is where [opened_at] and [closed_at] say;
    no later session has left a trace. *)
Definition well_closed {byte : Type} (w : @worker_state byte) : Prop :=
  (forall m, (session w < m)%nat ->
             open_count m (events w) = 0%nat /\
             close_count m (events w) = 0%nat) /\
  (forall m, (m < session w)%nat ->
             open_count m (events w) = 1%nat /\
             close_count m (events w) = 1%nat) /\
  open_count (session w) (events w) = opened_at (at_point w) /\
  close_count (session w) (events w) = closed_at (at_point w).

(** The worker is at a suspension point in this turn: it reaches
    [await to_thread(stream.read, ...)] because the stream is active, or it
    is at [await context.resume.wait()]. *)
Definition suspended {byte : Type}
  (w : @worker_state byte) (t : tick byte) : Prop :=
  match at_point w with
  | AtRead _ => stream_active t = true
  | AtWait => True
  | AtOpen | Raised _ => False
  end.

(** ** Vocabulary of the further properties *)

(** The variables of the loop with the accumulator and its frame count
    replaced. *)
Definition with_accumulator {byte : Type} (s : @loop_state byte) (count : Z)
  (frames : list byte) : loop_state :=
  {| interval_frame_count := count;
     interval_frames := frames;
     speaking_frames := speaking_frames s;
     last_interval_frames := last_interval_frames s;
     total_speaking_seconds := total_speaking_seconds s;
     status := status s |}.

(** How many decisions an utterance has behind it in each state: none in
    "waiting", at least one in "speaking", at least two in "stopped". *)
Definition phase (st : Status) : nat :=
  match st with
  | st_waiting => 0
  | st_speaking => 1
  | st_stopped => 2
  end.

(** The outputs put on the queue, in the order of the events. *)
Fixpoint puts_of {byte : Type} (es : list (event byte))
  : list (WorkerOutput byte) :=
  match es with
  | [] => []
  | EvPut o :: rest => o :: puts_of rest
  | _ :: rest => puts_of rest
  end.

(** The events of one turn in which a read succeeds and what it yields, if
    anything, is put on the queue. *)
Definition read_events {byte : Type} (config : RecordingConfig) (n : nat)
  (y : option (list byte)) : list (event byte) :=
  match y with
  | None => [EvRead n]
  | Some frames => [EvRead n; EvPut (make_output config frames)]
  end.

(** A turn in which the stream is active, no cancellation arrives, the gate
    is set and the queue has room. *)
Definition smooth {byte : Type} (t : tick byte) : Prop :=
  stream_active t = true /\ cancel_delivered t = false /\
  resume_set t = true /\ queue_full t = false.

(** A turn in which the gate stays cleared and no cancellation arrives. *)
Definition held {byte : Type} (t : tick byte) : Prop :=
  cancel_delivered t = false /\ resume_set t = false.


(** Lists equal up to the bracketing of [++] and to empty ends. *)
Ltac app_normal :=
  simpl; repeat rewrite <- app_assoc; repeat rewrite app_nil_r; simpl;
  try reflexivity.

(** * Properties of the segmentation loop *)


Lemma Qlt_bool_false_iff (x y : Q) : Qlt_bool x y = false <-> (y <= x)%Q.
Proof.
  unfold Qlt_bool. rewrite negb_false_iff. apply Qle_bool_iff.
Qed.

Section LoopFacts.

Context {byte : Type}.
Variable rms : list byte -> Z -> Z.
Variable log : Q -> Q -> Q.
Variable config : RecordingConfig.
Variable sample_width : Z.

Local Abbreviation step := (recording_task_step rms log config sample_width).
Local Abbreviation decision := (interval_decision rms log config sample_width).
Local Abbreviation run := (run_loop rms log config sample_width).
Local Abbreviation decisions := (run_decisions rms log config sample_width).
Local Abbreviation speaks := (speaking_on rms log config sample_width).
Local Abbreviation due := (interval_due config).

Lemma run_loop_app (a b : list (list byte)) (s : loop_state) :
  run s (a ++ b) =
  let (s1, ys1) := run s a in
  let (s2, ys2) := run s1 b in
  (s2, ys1 ++ ys2).
Proof.
  revert s. induction a as [|x a IH]; intros s; simpl.
  - destruct (run s b); reflexivity.
  - destruct (step s x) as [s1 y]. rewrite IH.
    destruct (run s1 a) as [s2 ys]. destruct (run s2 b) as [s3 zs].
    now rewrite app_assoc.
Qed.

Lemma due_monotone (c c' : Z) : c <= c' -> due c = true -> due c' = true.
Proof.
  unfold interval_due. intros Hle H.
  apply Qle_bool_iff in H. apply Qle_bool_iff.
  eapply Qle_trans; [exact H|]. now rewrite Zle_Qle in Hle.
Qed.

Lemma not_due_monotone (c c' : Z) : c <= c' -> due c' = false -> due c = false.
Proof.
  intros Hle H. destruct (due c) eqn:E; [|reflexivity].
  rewrite (due_monotone c c' Hle E) in H. discriminate.
Qed.

(** The decision reads the utterance, the lookback, the total and the state,
    not the accumulator. *)
Lemma decision_ext (s t : loop_state) (frames : list byte) :
  speaking_frames s = speaking_frames t ->
  last_interval_frames s = last_interval_frames t ->
  total_speaking_seconds s = total_speaking_seconds t ->
  status s = status t ->
  decision s frames = decision t frames.
Proof.
  intros H1 H2 H3 H4. unfold interval_decision.
  rewrite H1, H2, H3, H4. reflexivity.
Qed.

Lemma decision_boundary (s : loop_state) (frames : list byte) :
  at_boundary (fst (decision s frames)).
Proof.
  unfold interval_decision, at_boundary.
  destruct (status s);
    repeat match goal with |- context [if ?b then _ else _] => destruct b end;
    simpl; auto.
Qed.

Lemma step_due (s : loop_state) (in_data : list byte) :
  due (interval_frame_count s + chunk config) = true ->
  step s in_data = decision s (interval_frames s ++ in_data).
Proof. intros H. unfold recording_task_step. now rewrite H. Qed.

(** Reads that do not complete the interval only accumulate. *)
Lemma run_partial (cs : list (list byte)) :
  forall (s : loop_state) (j : nat),
    0 < chunk config ->
    interval_frame_count s = Z.of_nat j * chunk config ->
    due (Z.of_nat (j + length cs) * chunk config) = false ->
    run s cs =
    ({| interval_frame_count := Z.of_nat (j + length cs) * chunk config;
        interval_frames := interval_frames s ++ concat cs;
        speaking_frames := speaking_frames s;
        last_interval_frames := last_interval_frames s;
        total_speaking_seconds := total_speaking_seconds s;
        status := status s |}, []).
Proof.
  induction cs as [|c cs IH]; intros s j Hpos Hcount Hdue.
  - simpl. rewrite Nat.add_0_r, app_nil_r, <- Hcount. now destruct s.
  - simpl run_loop. unfold recording_task_step.
    assert (Hc : interval_frame_count s + chunk config
                 = Z.of_nat (S j) * chunk config) by (rewrite Hcount; lia).
    rewrite Hc.
    assert (Hnd : due (Z.of_nat (S j) * chunk config) = false).
    { eapply not_due_monotone; [|exact Hdue].
      apply Z.mul_le_mono_nonneg_r; [lia|]. simpl length. lia. }
    rewrite Hnd.
    replace (j + length (c :: cs))%nat with (S j + length cs)%nat in *
      by (simpl; lia).
    rewrite (IH _ (S j) Hpos) by (simpl; auto). simpl.
    now rewrite <- app_assoc.
Qed.

(** The reads of one interval amount to one decision on their bytes. *)
Lemma run_interval (n : nat) (s : loop_state) (cs : list (list byte)) :
  reads_per_interval config n ->
  at_boundary s ->
  length cs = n ->
  run s cs = let (s', y) := decision s (concat cs) in (s', option_list y).
Proof.
  intros (Hpos & Hn & Hdue & Hnot) [Hcount Hframes] Hlen.
  destruct (exists_last (l := cs)) as (cs0 & c & ->).
  { intros ->. simpl in Hlen. lia. }
  rewrite length_app in Hlen. simpl in Hlen.
  rewrite run_loop_app.
  rewrite (run_partial cs0 s 0 Hpos); [| rewrite Hcount; lia |].
  - simpl run_loop. rewrite step_due.
    + simpl. rewrite Hframes. simpl.
      rewrite concat_app. simpl. rewrite app_nil_r.
      rewrite (decision_ext _ s) by reflexivity.
      destruct (decision s (concat cs0 ++ c)). now rewrite app_nil_r.
    + simpl. replace (Z.of_nat (length cs0) * chunk config + chunk config)
        with (Z.of_nat n * chunk config) by lia. exact Hdue.
  - simpl. replace (Z.of_nat (length cs0)) with (Z.of_nat n - 1) by lia.
    exact Hnot.
Qed.

(** A stream of whole intervals is a sequence of decisions. *)
Lemma run_intervals (n : nat) (intervals : list (list (list byte))) :
  forall s : loop_state,
    reads_per_interval config n ->
    at_boundary s ->
    Forall (fun iv => length iv = n) intervals ->
    run s (concat intervals) = decisions s (map (@concat byte) intervals).
Proof.
  induction intervals as [|iv ivs IH]; intros s Hn Hb Hall.
  - reflexivity.
  - inversion Hall as [|? ? Hiv Hivs]; subst.
    simpl. rewrite run_loop_app, (run_interval _ s iv Hn Hb eq_refl).
    pose proof (decision_boundary s (concat iv)) as Hb'.
    destruct (decision s (concat iv)) as [s1 y]. simpl in Hb'.
    rewrite (IH s1 Hn Hb' Hivs).
    now destruct (decisions s1 (map (@concat byte) ivs)).
Qed.

End LoopFacts.

(** ** The lookback after an interval *)

Section Lookback.

Context {byte : Type}.
Variable rms : list byte -> Z -> Z.
Variable log : Q -> Q -> Q.
Variable config : RecordingConfig.
Variable sample_width : Z.

(** C3 (amended).  Whatever the state, a read that completes an interval
    leaves the accumulator empty and its frame count at zero; the lookback is
    then the bytes of that interval when no utterance was yielded on it, and
    empty when one was. *)
Theorem C3_lookback_after_interval (s : loop_state) (in_data : list byte) :
  interval_due config (interval_frame_count s + chunk config) = true ->
  let (s', y) := recording_task_step rms log config sample_width s in_data in
  interval_frames s' = [] /\
  interval_frame_count s' = 0 /\
  last_interval_frames s' =
    match y with
    | None => interval_frames s ++ in_data
    | Some _ => []
    end.
Proof.
  intros Hdue. rewrite step_due by exact Hdue.
  unfold interval_decision.
  destruct (status s);
    repeat match goal with |- context [if ?b then _ else _] => destruct b end;
    simpl; auto.
Qed.

End Lookback.

(** ** Utterances do not overlap *)

Lemma interleave_snoc {A : Type} (gaps utts : list (list A)) (g u : list A) :
  length gaps = length utts ->
  interleave (gaps ++ [g]) (utts ++ [u]) = interleave gaps utts ++ g ++ u.
Proof.
  revert utts. induction gaps as [|g0 gaps IH]; intros [|u0 utts] Hlen;
    simpl in Hlen; try discriminate; simpl.
  - now rewrite app_nil_r.
  - rewrite IH by congruence. now rewrite <- !app_assoc.
Qed.

Lemma interleave_incl {A : Type} (gaps utts : list (list A)) (a : A) :
  length gaps = length utts ->
  In a (concat utts) -> In a (interleave gaps utts).
Proof.
  revert utts. induction gaps as [|g gaps IH]; intros [|u utts] Hlen Hin;
    simpl in *; try discriminate; try contradiction.
  rewrite !in_app_iff in *. destruct Hin as [Hin|Hin]; [now auto|].
  right; right. apply IH; [congruence|assumption].
Qed.

Lemma NoDup_app_parts {A : Type} (l1 l2 : list A) :
  NoDup (l1 ++ l2) ->
  NoDup l1 /\ NoDup l2 /\ (forall a, In a l1 -> ~ In a l2).
Proof.
  induction l1 as [|x l1 IH]; simpl; intros H.
  - repeat split; [constructor | exact H | contradiction].
  - inversion H as [|? ? Hx Hrest]; subst.
    destruct (IH Hrest) as (H1 & H2 & H3).
    repeat split.
    + constructor; [|exact H1]. intros Hin. apply Hx, in_app_iff. now left.
    + exact H2.
    + intros a [->|Ha] Hin; [apply Hx, in_app_iff; now right|].
      exact (H3 a Ha Hin).
Qed.

Lemma interleave_NoDup {A : Type} (gaps utts : list (list A)) (rest : list A) :
  length gaps = length utts ->
  NoDup (interleave gaps utts ++ rest) -> NoDup (concat utts).
Proof.
  revert utts. induction gaps as [|g gaps IH]; intros [|u utts] Hlen Hnd;
    simpl in *; try discriminate; try constructor.
  rewrite <- !app_assoc in Hnd.
  apply NoDup_app_remove_l in Hnd.
  apply NoDup_app_parts in Hnd. destruct Hnd as (Hu & Hrest & Hdisj).
  apply NoDup_app; [exact Hu | |].
  - apply IH; [congruence|exact Hrest].
  - intros a Ha Hin. apply (Hdisj a Ha).
    apply in_app_iff. left. apply interleave_incl; [congruence|assumption].
Qed.

Section Disjoint.

Context {byte : Type}.
Variable rms : list byte -> Z -> Z.
Variable log : Q -> Q -> Q.
Variable config : RecordingConfig.
Variable sample_width : Z.

Lemma covers_init : covers (@init_state byte) [] [].
Proof.
  split; [reflexivity|]. exists [], []. split; reflexivity.
Qed.

(** One read keeps the decomposition: the bytes read either extend what the
    loop holds, or move from the lookback into a gap, or close an utterance. *)
Lemma covers_step (s : loop_state) (in_data consumed : list byte)
  (utts : list (list byte)) :
  covers s consumed utts ->
  let (s', y) := recording_task_step rms log config sample_width s in_data in
  covers s' (consumed ++ in_data) (utts ++ option_list y).
Proof.
  intros [Hsf (gaps & g & Hlen & Hc)].
  unfold recording_task_step.
  destruct (interval_due config (interval_frame_count s + chunk config)).
  - unfold interval_decision, covers, pending in *.
    destruct (status s) eqn:Est.
    + rewrite (Hsf eq_refl).
      destruct (loudness_gt _ _); simpl.
      * split; [discriminate|]. exists gaps, g. split; [now app_normal|].
        rewrite Hc. now app_normal.
      * split; [auto|].
        exists gaps, (g ++ last_interval_frames s). split; [now app_normal|].
        rewrite Hc. now app_normal.
    + simpl. split.
      * destruct (should_stop _ _ _); discriminate.
      * exists gaps, g. split; [now app_normal|].
        rewrite Hc. destruct (should_stop _ _ _); simpl; now app_normal.
    + destruct (should_stop _ _ _); simpl.
      * split; [reflexivity|]. exists (gaps ++ [g]), []. split.
        -- rewrite !length_app. simpl. lia.
        -- rewrite interleave_snoc by exact Hlen.
           rewrite Hc. now app_normal.
      * split.
        -- destruct (loudness_gt _ _); discriminate.
        -- exists gaps, g. split; [now app_normal|].
           rewrite Hc. destruct (loudness_gt _ _); simpl; now app_normal.
  - unfold covers, pending in *. simpl.
    split; [exact Hsf|]. exists gaps, g. split; [now app_normal|].
    rewrite Hc. destruct (status s); now app_normal.
Qed.

Lemma covers_run (reads : list (list byte)) :
  forall (s : loop_state) (consumed : list byte) (utts : list (list byte)),
    covers s consumed utts ->
    let (s', ys) := run_loop rms log config sample_width s reads in
    covers s' (consumed ++ concat reads) (utts ++ ys).
Proof.
  induction reads as [|in_data reads IH]; intros s consumed utts Hc; simpl.
  - now rewrite !app_nil_r.
  - pose proof (covers_step s in_data consumed utts Hc) as Hstep.
    destruct (recording_task_step rms log config sample_width s in_data)
      as [s1 y].
    specialize (IH s1 _ _ Hstep).
    destruct (run_loop rms log config sample_width s1 reads) as [s2 ys].
    now rewrite <- !app_assoc in IH.
Qed.

(** C7.  Whatever is read in a session, the input is the utterances yielded,
    in order, each in a range of its own, separated by the bytes left out
    ([gaps]) and followed by the bytes not yet yielded: no two utterances
    share a byte of the input, the lookback included.  Hence, when the bytes
    of the input can be told apart, no byte occurs twice in the utterances. *)
Theorem C7_utterances_do_not_overlap (reads : list (list byte)) :
  let utts := snd (recording_task_loop rms log config sample_width reads) in
  (exists gaps rest,
      length gaps = length utts /\
      concat reads = interleave gaps utts ++ rest) /\
  (NoDup (concat reads) -> NoDup (concat utts)).
Proof.
  unfold recording_task_loop.
  pose proof (covers_run reads init_state [] [] covers_init) as H.
  destruct (run_loop rms log config sample_width init_state reads) as [s ys].
  simpl in *. destruct H as [_ (gaps & g & Hlen & Hc)].
  split.
  - exists gaps, (g ++ pending s). split; assumption.
  - intros Hnd. rewrite Hc in Hnd.
    eapply interleave_NoDup; eassumption.
Qed.

End Disjoint.

(** ** Silence *)

Lemma unsigned_le_zero (bs : list Byte.byte) :
  Forall (eq Byte.x00) bs -> unsigned_le bs = 0.
Proof.
  induction 1 as [|b bs Hb _ IH]; simpl; [reflexivity|].
  subst b. rewrite IH. reflexivity.
Qed.

Lemma signed_le_zero (bs : list Byte.byte) :
  Forall (eq Byte.x00) bs -> signed_le bs = 0.
Proof.
  intros H. unfold signed_le. rewrite (unsigned_le_zero bs H).
  destruct (2 * 0 <? 2 ^ (8 * Z.of_nat (length bs))) eqn:E; [reflexivity|].
  apply Z.ltb_ge in E.
  assert (0 < 2 ^ (8 * Z.of_nat (length bs))) by (apply Z.pow_pos_nonneg; lia).
  lia.
Qed.

Lemma raw_samples_zero (fragment : list Byte.byte) :
  forall (w k : nat) (cur : list Byte.byte),
    Forall (eq Byte.x00) cur ->
    Forall (eq Byte.x00) fragment ->
    Forall (eq 0) (raw_samples w k cur fragment).
Proof.
  induction fragment as [|b rest IH]; intros w k cur Hcur Hfrag; simpl.
  - constructor.
  - inversion Hfrag as [|? ? Hb Hrest]; subst.
    assert (Hnext : Forall (eq Byte.x00) (cur ++ [Byte.x00])).
    { apply Forall_app. split; [exact Hcur|]. repeat constructor. }
    destruct k as [|[|k']].
    + constructor; [now rewrite signed_le_zero | apply IH; [constructor|exact Hrest]].
    + constructor; [now rewrite signed_le_zero | apply IH; [constructor|exact Hrest]].
    + apply IH; assumption.
Qed.

Lemma sum_squares_zero (samples : list Z) :
  Forall (eq 0) samples -> sum_squares samples = 0.
Proof.
  induction 1 as [|v vs Hv _ IH]; simpl; [reflexivity|].
  subst v. rewrite IH. reflexivity.
Qed.

Lemma audioop_rms_silence (fragment : list Byte.byte) (width : Z) :
  Forall (eq Byte.x00) fragment -> audioop_rms fragment width = 0.
Proof.
  intros H. unfold audioop_rms. destruct fragment as [|b rest]; [reflexivity|].
  rewrite sum_squares_zero by (apply raw_samples_zero; [constructor|exact H]).
  rewrite Zdiv_0_l. reflexivity.
Qed.

(** C9.  A fragment whose root mean square is zero, in particular one of
    zero bytes only or the empty fragment, has loudness negative infinity,
    which is above no threshold: whatever the configuration, such an interval
    does not count as speech. *)
Theorem C9_zero_rms_is_never_speech (log : Q -> Q -> Q) (frames : list Byte.byte)
  (sample_width : Z) :
  audioop_rms frames sample_width = 0 \/
  Forall (eq Byte.x00) frames \/ frames = [] ->
  get_dbfs audioop_rms log frames sample_width = NegInf /\
  (forall thr : Q,
      loudness_gt (get_dbfs audioop_rms log frames sample_width) thr = false) /\
  (forall config : RecordingConfig,
      speaking_on audioop_rms log config sample_width frames = false).
Proof.
  intros H.
  assert (Hrms : audioop_rms frames sample_width = 0).
  { destruct H as [H|[H|H]].
    - exact H.
    - now apply audioop_rms_silence.
    - subst frames. reflexivity. }
  assert (Hdb : get_dbfs audioop_rms log frames sample_width = NegInf).
  { unfold get_dbfs. now rewrite Hrms. }
  split; [exact Hdb|]. split.
  - intros thr. now rewrite Hdb.
  - intros config. unfold speaking_on. now rewrite Hdb.
Qed.

Lemma C9_zero_rms_witness :
  get_dbfs audioop_rms floor_log (read_of quiet_frame 4) 2 = NegInf /\
  (forall thr : Q,
      loudness_gt (get_dbfs audioop_rms floor_log (read_of quiet_frame 4) 2) thr
      = false) /\
  (forall config : RecordingConfig,
      speaking_on audioop_rms floor_log config 2 (read_of quiet_frame 4) = false).
Proof.
  apply (C9_zero_rms_is_never_speech floor_log (read_of quiet_frame 4) 2).
  left. vm_compute. reflexivity.
Defined.

(** * The loop, one interval at a time *)

Lemma inject_nat_succ (m : nat) :
  (inject_Z (Z.of_nat (S m)) == inject_Z (Z.of_nat m) + 1)%Q.
Proof.
  rewrite Nat2Z.inj_succ. unfold Z.succ. rewrite inject_Z_plus. reflexivity.
Qed.


Lemma inject_nat_nonneg (m : nat) : (0 <= inject_Z (Z.of_nat m))%Q.
Proof. change 0%Q with (inject_Z 0). rewrite <- Zle_Qle. lia. Qed.

Section Intervals.

Context {byte : Type}.
Variable rms : list byte -> Z -> Z.
Variable log : Q -> Q -> Q.
Variable config : RecordingConfig.
Variable sample_width : Z.

Local Abbreviation decision := (interval_decision rms log config sample_width).
Local Abbreviation decisions := (run_decisions rms log config sample_width).
Local Abbreviation run := (run_loop rms log config sample_width).
Local Abbreviation speaks := (speaking_on rms log config sample_width).
Local Abbreviation interval_sec := (record_interval_sec config).
Local Abbreviation cap := (max_recording_sec config).

Lemma run_decisions_app (a b : list (list byte)) (s : loop_state) :
  decisions s (a ++ b) =
  let (s1, ys1) := decisions s a in
  let (s2, ys2) := decisions s1 b in
  (s2, ys1 ++ ys2).
Proof.
  revert s. induction a as [|x a IH]; intros s; simpl.
  - destruct (decisions s b); reflexivity.
  - destruct (decision s x) as [s1 y]. rewrite IH.
    destruct (decisions s1 a) as [s2 ys]. destruct (decisions s2 b) as [s3 zs].
    now rewrite app_assoc.
Qed.

Lemma should_stop_within (total : Q) :
  (total <= cap)%Q -> should_stop config true total = false.
Proof. intros H. unfold should_stop. simpl. now apply Qlt_bool_false_iff. Qed.


(** Line 81-84: a loud interval in state "waiting" starts an utterance with
    the lookback in front; the total is left as it is. *)
Lemma decision_start (s : loop_state) (frames : list byte) :
  status s = st_waiting ->
  speaks frames = true ->
  decision s frames =
  ({| interval_frame_count := 0;
      interval_frames := [];
      speaking_frames :=
        speaking_frames s ++ (last_interval_frames s ++ frames);
      last_interval_frames := frames;
      total_speaking_seconds := total_speaking_seconds s;
      status := st_speaking |}, None).
Proof.
  intros Hst Hsp. unfold interval_decision, speaking_on in *.
  now rewrite Hst, Hsp.
Qed.

Lemma decision_idle (s : loop_state) (frames : list byte) :
  status s = st_waiting ->
  speaks frames = false ->
  decision s frames =
  ({| interval_frame_count := 0;
      interval_frames := [];
      speaking_frames := speaking_frames s;
      last_interval_frames := frames;
      total_speaking_seconds := total_speaking_seconds s;
      status := st_waiting |}, None).
Proof.
  intros Hst Hsp. unfold interval_decision, speaking_on in *.
  now rewrite Hst, Hsp.
Qed.

(** Lines 85-101: with an utterance under way, an interval that is loud and
    keeps the total within the cap is appended and leaves the loop in state
    "speaking". *)
Lemma decision_continue (s : loop_state) (frames : list byte) :
  status s <> st_waiting ->
  speaks frames = true ->
  (total_speaking_seconds s + interval_sec <= cap)%Q ->
  decision s frames =
  ({| interval_frame_count := 0;
      interval_frames := [];
      speaking_frames := speaking_frames s ++ frames;
      last_interval_frames := frames;
      total_speaking_seconds := (total_speaking_seconds s + interval_sec)%Q;
      status := st_speaking |}, None).
Proof.
  intros Hst Hsp Hcap. unfold interval_decision, speaking_on in *.
  rewrite Hsp, (should_stop_within _ Hcap).
  destruct (status s); [contradiction| |]; reflexivity.
Qed.

(** Lines 85-90: in state "speaking", a quiet interval, or one that takes the
    total beyond the cap, is appended and moves the loop to "stopped". *)
Lemma decision_halt (s : loop_state) (frames : list byte) :
  status s = st_speaking ->
  should_stop config (speaks frames)
    (total_speaking_seconds s + interval_sec) = true ->
  decision s frames =
  ({| interval_frame_count := 0;
      interval_frames := [];
      speaking_frames := speaking_frames s ++ frames;
      last_interval_frames := frames;
      total_speaking_seconds := (total_speaking_seconds s + interval_sec)%Q;
      status := st_stopped |}, None).
Proof.
  intros Hst Hstop. unfold interval_decision, speaking_on in *.
  now rewrite Hst, Hstop.
Qed.

(** Lines 91-99: in state "stopped", such an interval is appended, the
    utterance is yielded, and the total stays what it has become. *)
Lemma decision_yield (s : loop_state) (frames : list byte) :
  status s = st_stopped ->
  should_stop config (speaks frames)
    (total_speaking_seconds s + interval_sec) = true ->
  decision s frames =
  ({| interval_frame_count := 0;
      interval_frames := [];
      speaking_frames := [];
      last_interval_frames := [];
      total_speaking_seconds := (total_speaking_seconds s + interval_sec)%Q;
      status := st_waiting |}, Some (speaking_frames s ++ frames)).
Proof.
  intros Hst Hstop. unfold interval_decision, speaking_on in *.
  now rewrite Hst, Hstop.
Qed.

(** Loud intervals that keep the total within the cap are all appended to
    the utterance under way, without a boundary. *)
Lemma loud_run_speaking (fs : list (list byte)) (s : loop_state) :
  status s = st_speaking ->
  Forall (fun x => speaks x = true) fs ->
  (0 <= interval_sec)%Q ->
  (total_speaking_seconds s
   + inject_Z (Z.of_nat (length fs)) * interval_sec <= cap)%Q ->
  exists s',
    decisions s fs = (s', []) /\
    status s' = st_speaking /\
    speaking_frames s' = speaking_frames s ++ concat fs /\
    (total_speaking_seconds s' ==
     total_speaking_seconds s
     + inject_Z (Z.of_nat (length fs)) * interval_sec)%Q.
Proof.
  revert s. induction fs as [|f fs IH]; intros s Hst Hall Hpos Hcap.
  - exists s. simpl. repeat split; [assumption | now app_normal | ].
    unfold inject_Z. ring.
  - inversion Hall as [|? ? Hf Hrest]; subst.
    pose proof (inject_nat_succ (length fs)) as Hlen.
    pose proof (inject_nat_nonneg (length fs)) as H0.
    change (length (f :: fs)) with (S (length fs)) in *.
    set (a := inject_Z (Z.of_nat (S (length fs)))) in *.
    set (b := inject_Z (Z.of_nat (length fs))) in *.
    assert (Hb : (0 <= b * interval_sec)%Q)
      by (apply Qmult_le_0_compat; assumption).
    assert (Hab : (a * interval_sec == b * interval_sec + interval_sec)%Q)
      by (rewrite Hlen; ring).
    simpl run_decisions.
    rewrite decision_continue; [| rewrite Hst; discriminate | exact Hf | lra].
    destruct (IH {| interval_frame_count := 0;
                    interval_frames := [];
                    speaking_frames := speaking_frames s ++ f;
                    last_interval_frames := f;
                    total_speaking_seconds :=
                      (total_speaking_seconds s + interval_sec)%Q;
                    status := st_speaking |})
      as (s' & Hrun & Hst' & Hsf & Htot);
      [reflexivity | exact Hrest | exact Hpos | simpl; fold b; lra |].
    rewrite Hrun. exists s'. split; [reflexivity|]. split; [exact Hst'|].
    simpl in Hsf, Htot. fold b in Htot. split.
    + rewrite Hsf. now app_normal.
    + rewrite Htot. lra.
Qed.



(** Loud intervals from state "waiting", then two quiet ones: one utterance,
    made of the lookback and of all these intervals. *)
Lemma loud_then_quiet_twice (f q1 q2 : list byte) (fs : list (list byte))
  (s : loop_state) :
  status s = st_waiting ->
  Forall (fun x => speaks x = true) (f :: fs) ->
  speaks q1 = false ->
  speaks q2 = false ->
  (0 <= interval_sec)%Q ->
  (total_speaking_seconds s
   + inject_Z (Z.of_nat (length fs)) * interval_sec <= cap)%Q ->
  exists s',
    decisions s ((f :: fs) ++ [q1; q2]) =
    (s', [speaking_frames s ++ last_interval_frames s
            ++ concat (f :: fs) ++ q1 ++ q2]) /\
    status s' = st_waiting.
Proof.
  intros Hst Hall Hq1 Hq2 Hpos Hcap.
  inversion Hall as [|? ? Hf Hfs]; subst.
  simpl app. simpl run_decisions.
  rewrite decision_start by assumption.
  destruct (loud_run_speaking fs
              {| interval_frame_count := 0;
                 interval_frames := [];
                 speaking_frames :=
                   speaking_frames s ++ (last_interval_frames s ++ f);
                 last_interval_frames := f;
                 total_speaking_seconds := total_speaking_seconds s;
                 status := st_speaking |})
    as (s1 & Hrun & Hst1 & Hsf1 & _);
    [reflexivity | exact Hfs | exact Hpos | exact Hcap |].
  rewrite run_decisions_app, Hrun. simpl run_decisions.
  rewrite decision_halt; [| exact Hst1 | rewrite Hq1; reflexivity].
  rewrite decision_yield; [| reflexivity | simpl; rewrite Hq2; reflexivity].
  eexists. split.
  - apply f_equal. rewrite Hsf1. simpl. f_equal. now app_normal.
  - reflexivity.
Qed.


End Intervals.

(** * The claims on whole intervals of reads *)


Section IntervalClaims.

Context {byte : Type}.
Variable rms : list byte -> Z -> Z.
Variable log : Q -> Q -> Q.
Variable config : RecordingConfig.
Variable sample_width : Z.

Local Abbreviation run := (run_loop rms log config sample_width).
Local Abbreviation is_loud := (loud rms log config sample_width).
Local Abbreviation is_quiet := (quiet rms log config sample_width).
Local Abbreviation interval_sec := (record_interval_sec config).
Local Abbreviation cap := (max_recording_sec config).




(** C1 (amended).  With rate 16000, intervals of 0.1 s, threshold -40 dBFS
    and a cap of 5 s, one quiet interval (which becomes the lookback), three
    loud intervals and two quiet ones, read from the start of a session,
    yield exactly one utterance: all the bytes of these six intervals, that
    is 6 x 1600 = 9600 samples when each interval holds 1600 samples of
    [w] bytes (pre-roll, three loud intervals, and both quiet intervals). *)
Theorem C1_scenario_yields_six_intervals (n : nat) (w : Z)
  (q0 l1 l2 l3 q4 q5 : list (list byte)) :
  rate config = 16000 ->
  record_interval_sec config = (1 # 10)%Q ->
  silence_threshold config = (-40)%Q ->
  max_recording_sec config = 5%Q ->
  reads_per_interval config n ->
  Forall (fun iv => length iv = n) [q0; l1; l2; l3; q4; q5] ->
  Forall (fun iv => Z.of_nat (length (concat iv)) = 1600 * w)
    [q0; l1; l2; l3; q4; q5] ->
  is_quiet q0 -> is_loud l1 -> is_loud l2 -> is_loud l3 ->
  is_quiet q4 -> is_quiet q5 ->
  exists u,
    snd (recording_task_loop rms log config sample_width
           (concat [q0; l1; l2; l3; q4; q5])) = [u] /\
    u = concat (concat [q0; l1; l2; l3; q4; q5]) /\
    Z.of_nat (length u) = 9600 * w.
Proof.
  intros _ Hsec _ Hcap Hn Hwhole Hsize Hq0 Hl1 Hl2 Hl3 Hq4 Hq5.
  unfold recording_task_loop.
  rewrite (run_intervals rms log config sample_width n _ init_state Hn)
    by (try split; auto).
  simpl map.
  change (run_decisions rms log config sample_width init_state
            (concat q0 :: ?rest))
    with (let (s1, y) :=
            interval_decision rms log config sample_width init_state (concat q0)
          in let (s2, ys) := run_decisions rms log config sample_width s1 rest
             in (s2, option_list y ++ ys)).
  rewrite decision_idle by (reflexivity || exact Hq0).
  destruct (loud_then_quiet_twice rms log config sample_width
              (concat l1) (concat q4) (concat q5) [concat l2; concat l3]
              {| interval_frame_count := 0;
                 interval_frames := [];
                 speaking_frames := speaking_frames (@init_state byte);
                 last_interval_frames := concat q0;
                 total_speaking_seconds :=
                   total_speaking_seconds (@init_state byte);
                 status := st_waiting |})
    as (s' & Hrun & _); try assumption; try reflexivity.
  - repeat constructor; assumption.
  - rewrite Hsec. discriminate.
  - rewrite Hsec, Hcap. discriminate.
  - simpl app in Hrun. rewrite Hrun. cbn [snd option_list app].
    eexists. split; [reflexivity|]. split.
    + simpl. rewrite !concat_app. now app_normal.
    + repeat match goal with
             | H : Forall _ (_ :: _) |- _ => inversion H; subst; clear H
             end.
      rewrite app_nil_r, !length_app. lia.
Qed.

End IntervalClaims.

(** * The claims on 16-bit PCM *)

Lemma scenario_reads_per_interval : reads_per_interval scenario_config 2.
Proof.
  unfold reads_per_interval.
  split; [reflexivity|]. split; [lia|]. split; vm_compute; reflexivity.
Qed.


Lemma loud_interval_is_loud :
  loud audioop_rms floor_log scenario_config 2 loud_interval.
Proof. vm_compute. reflexivity. Qed.

Lemma quiet_interval_is_quiet :
  quiet audioop_rms floor_log scenario_config 2 quiet_interval.
Proof. vm_compute. reflexivity. Qed.

(** C1, as claimed, fails: in the scenario the one utterance yielded holds
    9600 samples, the second quiet interval included, not 4 x 1600 + 1600. *)
Lemma C1_scenario_is_not_8000_samples :
  reads_per_interval scenario_config 2 /\
  loud audioop_rms floor_log scenario_config 2 loud_interval /\
  quiet audioop_rms floor_log scenario_config 2 quiet_interval /\
  map (fun u => Z.of_nat (length u) / 2)
    (snd (pcm_loop scenario_config scenario_reads)) = [9600] /\
  map (fun u => Z.of_nat (length u) / 2)
    (snd (pcm_loop scenario_config scenario_reads)) <> [4 * 1600 + 1600].
Proof.
  split; [exact scenario_reads_per_interval|].
  split; [exact loud_interval_is_loud|].
  split; [exact quiet_interval_is_quiet|].
  split; [vm_compute; reflexivity | vm_compute; discriminate].
Qed.

Lemma C1_scenario_witness :
  exists u,
    snd (recording_task_loop audioop_rms floor_log scenario_config 2
           (concat [quiet_interval; loud_interval; loud_interval;
                    loud_interval; quiet_interval; quiet_interval])) = [u] /\
    u = concat (concat [quiet_interval; loud_interval; loud_interval;
                        loud_interval; quiet_interval; quiet_interval]) /\
    Z.of_nat (length u) = 9600 * 2.
Proof.
  apply (C1_scenario_yields_six_intervals audioop_rms floor_log
           scenario_config 2 2 2
           quiet_interval loud_interval loud_interval loud_interval
           quiet_interval quiet_interval);
    try reflexivity;
    try exact scenario_reads_per_interval;
    try exact loud_interval_is_loud;
    try exact quiet_interval_is_quiet;
    repeat constructor; vm_compute; reflexivity.
Defined.


(** C2: the code at the failing input.  With a cap of 2 s and intervals of
    1 s, the first utterance leaves the total at 4 s when it is yielded; the
    second utterance is then cut on its third interval, while the speech goes
    on and only 2 s have been counted for it, and the total reaches 6 s. *)
Theorem C2_total_survives_the_yield :
  let config := unit_config 2 in
  let first := pcm_loop config (firstn 5 two_utterance_reads) in
  let both := pcm_loop config two_utterance_reads in
  snd first = [concat (firstn 5 two_utterance_reads)] /\
  status (fst first) = st_waiting /\
  speaking_frames (fst first) = [] /\
  (total_speaking_seconds (fst first) == 4)%Q /\
  snd both = [concat (firstn 5 two_utterance_reads);
              concat (skipn 5 two_utterance_reads)] /\
  Forall (fun r => speaking_on audioop_rms floor_log config 2 r = true)
    (skipn 6 two_utterance_reads) /\
  (total_speaking_seconds (fst both) == 6)%Q.
Proof.
  cbv zeta. repeat split; try (vm_compute; reflexivity).
  repeat constructor.
Qed.

(** C3, as claimed, fails: on the interval that yields an utterance the
    lookback is left empty, not equal to the bytes of that interval. *)
Lemma C3_lookback_is_empty_after_a_yield :
  let config := unit_config 5 in
  let s := fst (pcm_loop config [loud_read; quiet_read]) in
  let r := recording_task_step audioop_rms floor_log config 2 s quiet_read in
  interval_due config (interval_frame_count s + chunk config) = true /\
  snd r = Some (loud_read ++ quiet_read ++ quiet_read) /\
  last_interval_frames (fst r) = [] /\
  last_interval_frames (fst r) <> interval_frames s ++ quiet_read.
Proof.
  cbv zeta. repeat split; try (vm_compute; reflexivity).
  vm_compute. discriminate.
Qed.

Lemma C3_lookback_witness :
  let (s', y) :=
    recording_task_step audioop_rms floor_log (unit_config 5) 2
      init_state quiet_read in
  interval_frames s' = [] /\
  interval_frame_count s' = 0 /\
  last_interval_frames s' =
    match y with
    | None => interval_frames (@init_state Byte.byte) ++ quiet_read
    | Some _ => []
    end.
Proof.
  apply (C3_lookback_after_interval audioop_rms floor_log (unit_config 5) 2
           init_state quiet_read).
  vm_compute. reflexivity.
Defined.





(** * Properties of the worker *)

Lemma open_count_app {byte : Type} (n : nat) (es es' : list (event byte)) :
  open_count n (es ++ es') = (open_count n es + open_count n es')%nat.
Proof. unfold open_count. now rewrite filter_app, length_app. Qed.

Lemma close_count_app {byte : Type} (n : nat) (es es' : list (event byte)) :
  close_count n (es ++ es') = (close_count n es + close_count n es')%nat.
Proof. unfold close_count. now rewrite filter_app, length_app. Qed.

Section WorkerFacts.

Context {byte : Type}.
Variable rms : list byte -> Z -> Z.
Variable log : Q -> Q -> Q.
Variable config : RecordingConfig.
Variable get_sample_size : Z -> Z.

Local Abbreviation wstep := (worker_step rms log config get_sample_size).
Local Abbreviation wrun := (worker_run rms log config get_sample_size).
Local Abbreviation step :=
  (recording_task_step rms log config (get_sample_size (format config))).
Local Abbreviation run :=
  (run_loop rms log config (get_sample_size (format config))).

Lemma well_closed_start : well_closed (@worker_start byte).
Proof.
  unfold well_closed, worker_start. simpl.
  repeat split; try reflexivity; lia.
Qed.

(** Events of the current session that open its stream [k_open] times and
    close it [k_close] times, leading to a point that agrees with it. *)
Lemma well_closed_emit (w : worker_state) (c : control)
  (es : list (event byte)) (k_open k_close : nat) :
  well_closed w ->
  (forall m, open_count m es
             = if Nat.eqb (session w) m then k_open else 0%nat) ->
  (forall m, close_count m es
             = if Nat.eqb (session w) m then k_close else 0%nat) ->
  opened_at c = (opened_at (at_point w) + k_open)%nat ->
  closed_at c = (closed_at (at_point w) + k_close)%nat ->
  well_closed (emit w c es).
Proof.
  intros (Hlater & Hearlier & Hopen & Hclose) Ho Hc Hco Hcc.
  unfold well_closed, emit. simpl.
  assert (Hother : forall m, m <> session w ->
                             open_count m es = 0%nat /\
                             close_count m es = 0%nat).
  { intros m Hm. rewrite Ho, Hc.
    destruct (Nat.eqb_spec (session w) m); [congruence|auto]. }
  repeat split.
  - rewrite open_count_app. destruct (Hother m ltac:(lia)) as [-> _].
    destruct (Hlater m H) as [-> _]. reflexivity.
  - rewrite close_count_app. destruct (Hother m ltac:(lia)) as [_ ->].
    destruct (Hlater m H) as [_ ->]. reflexivity.
  - rewrite open_count_app. destruct (Hother m ltac:(lia)) as [-> _].
    destruct (Hearlier m H) as [-> _]. reflexivity.
  - rewrite close_count_app. destruct (Hother m ltac:(lia)) as [_ ->].
    destruct (Hearlier m H) as [_ ->]. reflexivity.
  - rewrite open_count_app, Ho, Nat.eqb_refl, Hopen, Hco. reflexivity.
  - rewrite close_count_app, Hc, Nat.eqb_refl, Hclose, Hcc. reflexivity.
Qed.

(** The counts of the few lists of events the worker emits in one turn. *)
Ltac count_events :=
  intros ?m; unfold open_count, close_count; simpl;
  repeat match goal with
         | |- context [Nat.eqb ?a ?b] => destruct (Nat.eqb a b)
         end;
  reflexivity.

Lemma well_closed_step (w : worker_state) (t : tick byte) :
  well_closed w -> well_closed (wstep w t).
Proof.
  intros Hw. unfold worker_step.
  destruct (at_point w) as [|s| |e] eqn:Hat.
  - destruct (device_found t).
    + apply (well_closed_emit w _ _ 1 0 Hw);
        [count_events | count_events | now rewrite Hat..].
    + apply (well_closed_emit w _ _ 0 0 Hw);
        [count_events | count_events | now rewrite Hat..].
  - destruct (stream_active t); simpl.
    2: { apply (well_closed_emit w _ _ 0 1 Hw);
           [count_events | count_events | now rewrite Hat..]. }
    destruct (cancel_delivered t).
    { apply (well_closed_emit w _ _ 0 1 Hw);
        [count_events | count_events | now rewrite Hat..]. }
    destruct (recording_task_step _ _ _ _ s (in_data t)) as [s' [frames|]].
    + destruct (resume_set t); simpl.
      * destruct (queue_full t);
          (apply (well_closed_emit w _ _ 0 0 Hw);
           [count_events | count_events | now rewrite Hat..]).
      * apply (well_closed_emit w _ _ 0 1 Hw);
          [count_events | count_events | now rewrite Hat..].
    + apply (well_closed_emit w _ _ 0 0 Hw);
        [count_events | count_events | now rewrite Hat..].
  - destruct (cancel_delivered t).
    { apply (well_closed_emit w _ _ 0 0 Hw);
        [count_events | count_events | now rewrite Hat..]. }
    destruct (resume_set t); [|exact Hw].
    destruct Hw as (Hlater & Hearlier & Hopen & Hclose).
    rewrite Hat in Hopen, Hclose.
    unfold well_closed. simpl. repeat split.
    + apply Hlater. lia.
    + apply Hlater. lia.
    + destruct (Nat.eq_dec m (session w)) as [->|Hne]; [exact Hopen|].
      apply Hearlier. lia.
    + destruct (Nat.eq_dec m (session w)) as [->|Hne]; [exact Hclose|].
      apply Hearlier. lia.
    + apply Hlater. lia.
    + apply Hlater. lia.
  - exact Hw.
Qed.

Lemma well_closed_fold (ticks : list (tick byte)) :
  forall w : worker_state,
    well_closed w -> well_closed (fold_left wstep ticks w).
Proof.
  induction ticks as [|t ticks IH]; intros w Hw; simpl; [exact Hw|].
  apply IH. now apply well_closed_step.
Qed.

Lemma well_closed_run (ticks : list (tick byte)) : well_closed (wrun ticks).
Proof. apply well_closed_fold. exact well_closed_start. Qed.

(** Once an exception has left the worker, nothing more happens. *)
Lemma raised_is_final (more : list (tick byte)) (w : worker_state)
  (e : exception) :
  at_point w = Raised e -> fold_left wstep more w = w.
Proof.
  intros Hat. induction more as [|t more IH]; simpl; [reflexivity|].
  unfold worker_step at 2. now rewrite Hat.
Qed.

(** C8.  When a cancellation is delivered while the worker is suspended,
    in the device read or in the wait for the resume gate, the worker ends by
    raising [CancelledError]; at that moment every stream it has opened, the
    current one included, has been opened once and closed once; and nothing
    happens afterwards. *)
Theorem C8_cancellation_closes_once_and_propagates (ticks : list (tick byte))
  (t : tick byte) (more : list (tick byte)) :
  cancel_delivered t = true ->
  suspended (wrun ticks) t ->
  let w' := wstep (wrun ticks) t in
  at_point w' = Raised CancelledError /\
  session w' = session (wrun ticks) /\
  (forall m, (m <= session w')%nat ->
             open_count m (events w') = 1%nat /\
             close_count m (events w') = 1%nat) /\
  fold_left wstep more w' = w'.
Proof.
  intros Hcancel Hsusp. cbv zeta.
  pose proof (well_closed_step _ t (well_closed_run ticks)) as Hw'.
  assert (Hat : at_point (wstep (wrun ticks) t) = Raised CancelledError
                /\ session (wstep (wrun ticks) t) = session (wrun ticks)).
  { unfold suspended in Hsusp. unfold worker_step.
    destruct (at_point (wrun ticks)); try contradiction.
    - rewrite Hsusp, Hcancel. simpl. auto.
    - rewrite Hcancel. simpl. auto. }
  destruct Hat as [Hat Hsession].
  split; [exact Hat|]. split; [exact Hsession|]. split.
  - destruct Hw' as (_ & Hearlier & Hopen & Hclose).
    rewrite Hat in Hopen, Hclose. simpl in Hopen, Hclose. intros m Hm.
    destruct (Nat.eq_dec m (session (wstep (wrun ticks) t))) as [->|Hne].
    + split; assumption.
    + apply Hearlier. lia.
  - now apply (raised_is_final more _ CancelledError).
Qed.

(** Reads on which the loop yields nothing keep the worker reading in the
    same session, whatever the gate says. *)
Lemma reading_goes_on (ticks : list (tick byte)) :
  forall (w : worker_state) (s : loop_state),
    at_point w = AtRead s ->
    Forall (fun t => stream_active t = true /\ cancel_delivered t = false)
      ticks ->
    snd (run s (map (@in_data byte) ticks)) = [] ->
    fold_left wstep ticks w =
    {| at_point := AtRead (fst (run s (map (@in_data byte) ticks)));
       session := session w;
       events := events w ++ repeat (EvRead (session w)) (length ticks) |}.
Proof.
  induction ticks as [|t ticks IH]; intros w s Hat Hall Hnone.
  - simpl. rewrite app_nil_r, <- Hat. now destruct w.
  - inversion Hall as [|? ? [Hactive Hcancel] Hrest]; subst.
    simpl in Hnone |- *.
    unfold worker_step at 2. rewrite Hat, Hactive, Hcancel. simpl.
    destruct (recording_task_step _ _ _ _ s (in_data t)) as [s1 y].
    destruct (run s1 (map (@in_data byte) ticks)) as [s2 ys] eqn:Erun.
    simpl in Hnone. apply app_eq_nil in Hnone. destruct Hnone as [Hy Hys].
    destruct y; [discriminate|].
    rewrite (IH (emit w (AtRead s1) [EvRead (session w)]) s1 eq_refl Hrest)
      by (rewrite Erun; exact Hys).
    rewrite Erun. simpl. now rewrite <- app_assoc.
Qed.

(** C10.  From a point where the worker reads, as long as the stream is
    active, no cancellation arrives and the loop completes no utterance, the
    worker stays in the same session and goes on reading, one read per turn,
    whether the resume gate is set or not; and on the turn where the loop
    yields an utterance while the gate is not set, the utterance is not
    published, the stream is closed and the worker goes to wait for the
    gate. *)
Theorem C10_gate_is_consulted_only_on_a_yield (w : worker_state)
  (s : loop_state) (ticks : list (tick byte)) (t : tick byte) :
  at_point w = AtRead s ->
  Forall (fun t => stream_active t = true /\ cancel_delivered t = false)
    (ticks ++ [t]) ->
  snd (run s (map (@in_data byte) ticks)) = [] ->
  let s1 := fst (run s (map (@in_data byte) ticks)) in
  let w1 := fold_left wstep ticks w in
  w1 = {| at_point := AtRead s1;
          session := session w;
          events := events w ++ repeat (EvRead (session w)) (length ticks) |}
  /\
  (forall frames,
      snd (step s1 (in_data t)) = Some frames ->
      resume_set t = false ->
      wstep w1 t =
      {| at_point := AtWait;
         session := session w;
         events := events w1 ++ [EvRead (session w); EvClose (session w)] |}).
Proof.
  intros Hat Hall Hnone. cbv zeta.
  apply Forall_app in Hall. destruct Hall as [Hticks Ht].
  inversion Ht as [|? ? [Hactive Hcancel] _]; subst.
  rewrite (reading_goes_on ticks w s Hat Hticks Hnone).
  split; [reflexivity|].
  intros frames Hyield Hgate.
  unfold worker_step. simpl. rewrite Hactive, Hcancel. simpl.
  destruct (recording_task_step _ _ _ _ _ (in_data t)) as [s' y].
  simpl in Hyield. subst y. rewrite Hgate. reflexivity.
Qed.

(** C5 (amended).  When [put_nowait] finds the queue full, with the gate
    set, the utterance is not published and not kept for later; [QueueFull]
    is caught by no handler: it leaves the worker, which ends there with the
    stream still open, and nothing happens afterwards. *)
Theorem C5_queue_full_ends_the_worker (w : worker_state) (s : loop_state)
  (t : tick byte) (frames : list byte) (more : list (tick byte)) :
  at_point w = AtRead s ->
  stream_active t = true ->
  cancel_delivered t = false ->
  snd (step s (in_data t)) = Some frames ->
  resume_set t = true ->
  queue_full t = true ->
  let w' := wstep w t in
  at_point w' = Raised QueueFull /\
  events w' = events w ++ [EvRead (session w)] /\
  fold_left wstep more w' = w'.
Proof.
  intros Hat Hactive Hcancel Hyield Hgate Hfull. cbv zeta.
  assert (Hstep : wstep w t =
                  emit w (Raised QueueFull) [EvRead (session w)]).
  { unfold worker_step. rewrite Hat, Hactive, Hcancel. simpl.
    destruct (recording_task_step _ _ _ _ s (in_data t)) as [s' y].
    simpl in Hyield. subst y. now rewrite Hgate, Hfull. }
  rewrite Hstep. simpl. repeat split.
  now apply (raised_is_final more _ QueueFull).
Qed.

End WorkerFacts.

(** * The worker on 16-bit PCM *)

(** C5, as claimed, fails: the worker does not go on after a full queue.
    An utterance is completed on the third read while the queue is full; the
    worker ends with [QueueFull], and a whole further utterance offered by
    the device with room in the queue leaves no trace. *)
Lemma C5_worker_does_not_survive_a_full_queue :
  let w := pcm_worker (unit_config 5) full_queue_ticks in
  let later :=
    pcm_worker (unit_config 5)
      (full_queue_ticks ++
       [read_tick loud_read true false;
        read_tick quiet_read true false;
        read_tick quiet_read true false]) in
  at_point w = Raised QueueFull /\
  events w = [EvOpen 0%nat; EvRead 0%nat; EvRead 0%nat; EvRead 0%nat] /\
  later = w.
Proof. cbv zeta. repeat split; vm_compute; reflexivity. Qed.

Lemma C5_queue_full_witness :
  let w :=
    pcm_worker (unit_config 5)
      [read_tick [] true false;
       read_tick loud_read true false; read_tick quiet_read true false] in
  let w' :=
    worker_step audioop_rms floor_log (unit_config 5) pcm_sample_size w
      (read_tick quiet_read true true) in
  at_point w' = Raised QueueFull /\
  events w' = events w ++ [EvRead (session w)] /\
  fold_left (worker_step audioop_rms floor_log (unit_config 5) pcm_sample_size)
    [read_tick loud_read true false] w' = w'.
Proof.
  apply (C5_queue_full_ends_the_worker audioop_rms floor_log (unit_config 5)
           pcm_sample_size
           (pcm_worker (unit_config 5)
              [read_tick [] true false;
               read_tick loud_read true false; read_tick quiet_read true false])
           (fst (pcm_loop (unit_config 5) [loud_read; quiet_read]))
           (read_tick quiet_read true true)
           (loud_read ++ quiet_read ++ quiet_read)
           [read_tick loud_read true false]);
    vm_compute; reflexivity.
Defined.

Lemma C7_overlap_witness :
  let utts := snd (pcm_loop (unit_config 2) two_utterance_reads) in
  (exists gaps rest,
      length gaps = length utts /\
      concat two_utterance_reads = interleave gaps utts ++ rest) /\
  (NoDup (concat two_utterance_reads) -> NoDup (concat utts)).
Proof.
  exact (C7_utterances_do_not_overlap audioop_rms floor_log (unit_config 2) 2
           two_utterance_reads).
Defined.

Lemma C8_cancellation_witness :
  let w := pcm_worker (unit_config 5) [inactive_tick; inactive_tick] in
  let w' :=
    worker_step audioop_rms floor_log (unit_config 5) pcm_sample_size w
      cancel_tick in
  at_point w' = Raised CancelledError /\
  session w' = session w /\
  (forall m, (m <= session w')%nat ->
             open_count m (events w') = 1%nat /\
             close_count m (events w') = 1%nat) /\
  fold_left (worker_step audioop_rms floor_log (unit_config 5) pcm_sample_size)
    [read_tick loud_read true false] w' = w'.
Proof.
  apply (C8_cancellation_closes_once_and_propagates audioop_rms floor_log
           (unit_config 5) pcm_sample_size
           [inactive_tick; inactive_tick] cancel_tick
           [read_tick loud_read true false]).
  - reflexivity.
  - vm_compute. exact I.
Defined.

Lemma C10_gate_witness :
  let w :=
    pcm_worker (unit_config 5)
      [read_tick [] true false; read_tick loud_read true false] in
  let s := fst (pcm_loop (unit_config 5) [loud_read]) in
  let ticks := [read_tick quiet_read false false] in
  let t := read_tick quiet_read false false in
  let s1 :=
    fst (run_loop audioop_rms floor_log (unit_config 5)
           (pcm_sample_size (format (unit_config 5))) s
           (map (@in_data Byte.byte) ticks)) in
  let w1 :=
    fold_left (worker_step audioop_rms floor_log (unit_config 5) pcm_sample_size)
      ticks w in
  w1 = {| at_point := AtRead s1;
          session := session w;
          events := events w ++ repeat (EvRead (session w)) (length ticks) |}
  /\
  (forall frames,
      snd (recording_task_step audioop_rms floor_log (unit_config 5)
             (pcm_sample_size (format (unit_config 5))) s1 (in_data t))
      = Some frames ->
      resume_set t = false ->
      worker_step audioop_rms floor_log (unit_config 5) pcm_sample_size w1 t =
      {| at_point := AtWait;
         session := session w;
         events := events w1 ++ [EvRead (session w); EvClose (session w)] |}).
Proof.
  apply (C10_gate_is_consulted_only_on_a_yield audioop_rms floor_log
           (unit_config 5) pcm_sample_size
           (pcm_worker (unit_config 5)
              [read_tick [] true false; read_tick loud_read true false])
           (fst (pcm_loop (unit_config 5) [loud_read]))
           [read_tick quiet_read false false]
           (read_tick quiet_read false false)).
  - vm_compute. reflexivity.
  - repeat constructor.
  - vm_compute. reflexivity.
Defined.

(** An utterance completed while the gate is cleared is dropped: the stream
    is closed and the worker waits. *)
Lemma paused_utterance_is_dropped :
  let w :=
    pcm_worker (unit_config 5)
      [read_tick [] true false;
       read_tick loud_read true false;
       read_tick quiet_read false false;
       read_tick quiet_read false false] in
  at_point w = AtWait /\
  events w =
    [EvOpen 0%nat; EvRead 0%nat; EvRead 0%nat; EvRead 0%nat; EvClose 0%nat].
Proof. cbv zeta. split; vm_compute; reflexivity. Qed.

(** Silence with the gate cleared all along: the worker keeps reading. *)
Lemma paused_silence_keeps_reading :
  let w := pcm_worker (unit_config 5) paused_silence_ticks in
  (exists s, at_point w = AtRead s) /\
  events w = [EvOpen 0%nat; EvRead 0%nat; EvRead 0%nat; EvRead 0%nat].
Proof. cbv zeta. split; [eexists|]; vm_compute; reflexivity. Qed.

(** * Further properties of the segmentation loop *)

Section LoopExtras.

Context {byte : Type}.
Variable rms : list byte -> Z -> Z.
Variable log : Q -> Q -> Q.
Variable config : RecordingConfig.
Variable sample_width : Z.

Local Abbreviation step := (recording_task_step rms log config sample_width).
Local Abbreviation decision := (interval_decision rms log config sample_width).
Local Abbreviation run := (run_loop rms log config sample_width).
Local Abbreviation decisions := (run_decisions rms log config sample_width).
Local Abbreviation interval_sec := (record_interval_sec config).


(** One read takes at most one decision, and an utterance is yielded only
    from state "stopped", two decisions after it began. *)
Lemma step_phase (s : loop_state) (in_data : list byte) :
  let (s', y) := step s in_data in
  (3 * length (option_list y) + phase (status s') <= phase (status s) + 1)%nat.
Proof.
  unfold recording_task_step, interval_decision.
  destruct (interval_due _ _); [|simpl; lia].
  destruct (status s);
    repeat match goal with |- context [if ?b then _ else _] => destruct b end;
    simpl; lia.
Qed.

(** X2.  An utterance takes at least three reads: whatever is read from the
    start of a session, three times the number of utterances yielded, plus
    the decisions behind the utterance under way, is at most the number of
    reads. *)
Theorem three_reads_per_utterance (reads : list (list byte)) :
  let (s, utts) := recording_task_loop rms log config sample_width reads in
  (3 * length utts + phase (status s) <= length reads)%nat.
Proof.
  unfold recording_task_loop.
  assert (H : forall (rs : list (list byte)) (s : loop_state),
             let (s', utts) := run s rs in
             (3 * length utts + phase (status s')
              <= phase (status s) + length rs)%nat).
  { induction rs as [|r rs IH]; intros s; simpl; [lia|].
    pose proof (step_phase s r) as Hstep.
    destruct (step s r) as [s1 y].
    specialize (IH s1). destruct (run s1 rs) as [s2 ys].
    rewrite length_app. lia. }
  specialize (H reads init_state).
  destruct (run init_state reads) as [s utts]. simpl in H. lia.
Qed.


(** X4.  The utterance buffer is empty whenever the loop is in state
    "waiting", after any reads from the start of a session. *)
Theorem waiting_holds_no_utterance (reads : list (list byte)) :
  let s := fst (recording_task_loop rms log config sample_width reads) in
  status s = st_waiting -> speaking_frames s = [].
Proof.
  unfold recording_task_loop.
  pose proof (covers_run rms log config sample_width reads init_state [] []
                covers_init) as H.
  destruct (run init_state reads) as [s ys]. simpl.
  destruct H as [Hsf _]. exact Hsf.
Qed.

End LoopExtras.

(** * Loudness of 16-bit and other PCM fragments *)

Lemma zero_fragment_is_quiet (log : Q -> Q -> Q) (config : RecordingConfig)
  (sample_width : Z) (frames : list Byte.byte) :
  Forall (eq Byte.x00) frames ->
  speaking_on audioop_rms log config sample_width frames = false.
Proof.
  intros H. unfold speaking_on, get_dbfs.
  now rewrite (audioop_rms_silence frames sample_width H).
Qed.

(** X5.  Digital silence never makes an utterance: when every byte read is
    zero, whatever the sizes of the reads, the threshold and the other
    settings, nothing is yielded, the loop stays in state "waiting" with an
    empty utterance buffer, and no duration is accumulated. *)
Theorem silence_never_yields (log : Q -> Q -> Q) (config : RecordingConfig)
  (sample_width : Z) (reads : list (list Byte.byte)) :
  Forall (Forall (eq Byte.x00)) reads ->
  let (s, utts) :=
    recording_task_loop audioop_rms log config sample_width reads in
  utts = [] /\
  status s = st_waiting /\
  speaking_frames s = [] /\
  total_speaking_seconds s = 0%Q.
Proof.
  intros Hzero. unfold recording_task_loop.
  assert (H : forall (rs : list (list Byte.byte)) (s : loop_state),
             Forall (Forall (eq Byte.x00)) rs ->
             status s = st_waiting ->
             Forall (eq Byte.x00) (interval_frames s) ->
             let (s', utts) :=
               run_loop audioop_rms log config sample_width s rs in
             utts = [] /\
             status s' = st_waiting /\
             speaking_frames s' = speaking_frames s /\
             total_speaking_seconds s' = total_speaking_seconds s).
  { induction rs as [|r rs IH]; intros s Hrs Hst Hacc; simpl; [auto|].
    inversion Hrs as [|? ? Hr Hrest]; subst.
    assert (Hfr : Forall (eq Byte.x00) (interval_frames s ++ r))
      by (apply Forall_app; split; assumption).
    pose proof (zero_fragment_is_quiet log config sample_width _ Hfr) as Hq.
    unfold recording_task_step, interval_decision.
    unfold speaking_on in Hq. rewrite Hq, Hst.
    destruct (interval_due config (interval_frame_count s + chunk config)).
    - match goal with
      | |- context [run_loop _ _ _ _ ?s1 rs] =>
          specialize (IH s1 Hrest eq_refl (Forall_nil _));
          destruct (run_loop audioop_rms log config sample_width s1 rs)
            as [s2 ys]
      end.
      simpl in IH. destruct IH as (-> & H1 & H2 & H3). auto.
    - match goal with
      | |- context [run_loop _ _ _ _ ?s1 rs] =>
          specialize (IH s1 Hrest eq_refl Hfr);
          destruct (run_loop audioop_rms log config sample_width s1 rs)
            as [s2 ys]
      end.
      simpl in IH. destruct IH as (-> & H1 & H2 & H3). auto. }
  specialize (H reads init_state Hzero eq_refl (Forall_nil _)).
  destruct (run_loop audioop_rms log config sample_width init_state reads)
    as [s utts].
  exact H.
Qed.

Lemma byte_value_bound (b : Byte.byte) : 0 <= byte_value b < 256.
Proof.
  unfold byte_value. pose proof (Byte.to_N_bounded b). lia.
Qed.

Lemma unsigned_le_bound (bs : list Byte.byte) :
  0 <= unsigned_le bs < 2 ^ (8 * Z.of_nat (length bs)).
Proof.
  induction bs as [|b bs IH].
  - simpl. lia.
  - cbn [unsigned_le length]. pose proof (byte_value_bound b).
    replace (8 * Z.of_nat (S (length bs)))
      with (8 + 8 * Z.of_nat (length bs)) by lia.
    rewrite Z.pow_add_r by lia. change (2 ^ 8) with 256. lia.
Qed.

(** A sample of [w >= 1] bytes lies between [-2^(8w-1)] and [2^(8w-1)]. *)
Lemma signed_le_square (bs : list Byte.byte) :
  (1 <= length bs)%nat ->
  let M := 2 ^ (8 * Z.of_nat (length bs) - 1) in
  signed_le bs * signed_le bs <= M * M.
Proof.
  intros Hlen M. unfold signed_le.
  pose proof (unsigned_le_bound bs) as Hu.
  assert (Hm : 2 ^ (8 * Z.of_nat (length bs)) = 2 * M).
  { unfold M. rewrite <- Z.pow_succ_r by lia. f_equal. lia. }
  rewrite Hm in *.
  assert (0 < M) by (apply Z.pow_pos_nonneg; lia).
  destruct (2 * unsigned_le bs <? 2 * M) eqn:E.
  - apply Z.ltb_lt in E. nia.
  - apply Z.ltb_ge in E. nia.
Qed.

Lemma raw_samples_bound (fragment : list Byte.byte) :
  forall (w k : nat) (cur : list Byte.byte),
    (1 <= k)%nat ->
    (length cur + k = w)%nat ->
    let M := 2 ^ (8 * Z.of_nat w - 1) in
    let samples := raw_samples w k cur fragment in
    Forall (fun v => v * v <= M * M) samples /\
    (length samples * w <= length cur + length fragment)%nat.
Proof.
  induction fragment as [|b rest IH]; intros w k cur Hk Hw; simpl.
  - split; [constructor|lia].
  - destruct k as [|[|k']]; [lia| |].
    + assert (Hlen : length (cur ++ [b]) = w)
        by (rewrite length_app; simpl; lia).
      destruct (IH w w [] ltac:(lia) ltac:(simpl; lia)) as [Hall Hcount].
      split.
      * constructor; [|exact Hall].
        pose proof (signed_le_square (cur ++ [b]) ltac:(lia)) as Hs.
        rewrite Hlen in Hs. exact Hs.
      * simpl in Hcount |- *. lia.
    + destruct (IH w (S k') (cur ++ [b]) ltac:(lia)
                  ltac:(rewrite length_app; simpl; lia)) as [Hall Hcount].
      split; [exact Hall|]. rewrite length_app in Hcount. simpl in Hcount. lia.
Qed.

Lemma sum_squares_bound (M : Z) (samples : list Z) :
  Forall (fun v => v * v <= M * M) samples ->
  0 <= sum_squares samples <= Z.of_nat (length samples) * (M * M).
Proof.
  induction 1 as [|v vs Hv _ IH]; simpl sum_squares; simpl length; [lia|].
  nia.
Qed.

(** The root mean square of samples of [width] bytes is at most full
    scale. *)
Lemma audioop_rms_bound (fragment : list Byte.byte) (width : Z) :
  1 <= width ->
  0 <= audioop_rms fragment width <= 2 ^ (8 * width - 1).
Proof.
  intros Hw. unfold audioop_rms.
  set (M := 2 ^ (8 * width - 1)).
  assert (HM : 0 < M) by (apply Z.pow_pos_nonneg; lia).
  destruct fragment as [|b rest]; [lia|].
  set (fragment := b :: rest).
  destruct (raw_samples_bound fragment (Z.to_nat width) (Z.to_nat width) []
              ltac:(lia) ltac:(simpl; lia)) as [Hall Hcount].
  rewrite Z2Nat.id in Hall by lia. fold M in Hall.
  set (samples := raw_samples (Z.to_nat width) (Z.to_nat width) [] fragment)
    in *.
  pose proof (sum_squares_bound M samples Hall) as [Hs0 Hs].
  simpl length in Hcount at 2.
  set (len := Z.of_nat (length fragment)).
  assert (Hn : Z.of_nat (length samples) <= len / width).
  { apply Z.div_le_lower_bound; [lia|]. unfold len. nia. }
  split; [apply Z.sqrt_nonneg|].
  rewrite <- (Z.sqrt_square M) by lia.
  apply Z.sqrt_le_mono.
  destruct (Z.eq_dec (len / width) 0) as [H0|H0].
  - rewrite H0, Z.div_0_r. nia.
  - apply Z.div_le_upper_bound; [lia|]. nia.
Qed.

(** The loudness is negative infinity or twenty times the logarithm of a
    fraction of full scale. *)
Lemma get_dbfs_fraction (log : Q -> Q -> Q)
  (frames : list Byte.byte) (sample_width : Z) :
  1 <= sample_width ->
  get_dbfs audioop_rms log frames sample_width = NegInf \/
  exists q : Q,
    (0 < q)%Q /\ (q <= 1)%Q /\
    get_dbfs audioop_rms log frames sample_width = Db (20 * log q 10)%Q.
Proof.
  intros Hw. unfold get_dbfs.
  pose proof (audioop_rms_bound frames sample_width Hw) as [H0 HM].
  destruct (audioop_rms frames sample_width =? 0) eqn:E; [left; reflexivity|].
  apply Z.eqb_neq in E. right.
  set (r := audioop_rms frames sample_width) in *.
  set (M := 2 ^ (8 * sample_width - 1)) in *.
  assert (HMpos : 0 < M) by (apply Z.pow_pos_nonneg; lia).
  assert (Hpow : 2 ^ (sample_width * 8) = 2 * M).
  { unfold M. rewrite <- Z.pow_succ_r by lia. f_equal. lia. }
  rewrite Hpow.
  assert (Hmax : (inject_Z (2 * M) / 2 == inject_Z M)%Q).
  { rewrite inject_Z_mult. change (inject_Z 2) with 2%Q. field. }
  assert (HMq : (0 < inject_Z M)%Q).
  { change 0%Q with (inject_Z 0). rewrite <- Zlt_Qlt. exact HMpos. }
  assert (Hrq : (0 < inject_Z r)%Q).
  { change 0%Q with (inject_Z 0). rewrite <- Zlt_Qlt. lia. }
  assert (Hle : (inject_Z r <= inject_Z M)%Q) by (rewrite <- Zle_Qle; exact HM).
  eexists. split; [|split; [|reflexivity]].
  - rewrite Hmax. apply Qlt_shift_div_l; [exact HMq|]. lra.
  - rewrite Hmax. apply Qle_shift_div_r; [exact HMq|]. lra.
Qed.

(** X6.  [get_dbfs] hands [math.log] a fraction of full scale: for samples
    of at least one byte the loudness is negative infinity or
    [20 * log(q, 10)] with [0 < q <= 1], so the logarithm is never taken of
    zero or of a negative number. *)
Theorem get_dbfs_takes_log_of_a_fraction (log : Q -> Q -> Q)
  (frames : list Byte.byte) (sample_width : Z) :
  1 <= sample_width ->
  get_dbfs audioop_rms log frames sample_width = NegInf \/
  exists q : Q,
    (0 < q)%Q /\ (q <= 1)%Q /\
    get_dbfs audioop_rms log frames sample_width = Db (20 * log q 10)%Q.
Proof.
  intros Hw.
  destruct (get_dbfs_fraction log frames sample_width Hw)
    as [H|(q & Hq0 & Hq1 & H)].
  - left. exact H.
  - right. exists q. repeat split; assumption.
Qed.

(** X7.  With a logarithm that is not positive on fractions of one, as the
    real one, no fragment is louder than 0 dBFS: a silence threshold of 0 or
    more makes every interval count as silence. *)
Theorem threshold_at_full_scale_silences_all (log : Q -> Q -> Q)
  (config : RecordingConfig) (frames : list Byte.byte) (sample_width : Z) :
  1 <= sample_width ->
  (forall q : Q, (0 < q)%Q -> (q <= 1)%Q -> (log q 10 <= 0)%Q) ->
  (0 <= silence_threshold config)%Q ->
  speaking_on audioop_rms log config sample_width frames = false.
Proof.
  intros Hw Hlog Hthr. unfold speaking_on.
  destruct (get_dbfs_fraction log frames sample_width Hw)
    as [->|(q & Hq0 & Hq1 & ->)]; [reflexivity|].
  simpl. apply Qlt_bool_false_iff.
  specialize (Hlog q Hq0 Hq1). lra.
Qed.

(** * Further properties on whole intervals *)

Section IntervalExtras.

Context {byte : Type}.
Variable rms : list byte -> Z -> Z.
Variable log : Q -> Q -> Q.
Variable config : RecordingConfig.
Variable sample_width : Z.

Local Abbreviation run := (run_loop rms log config sample_width).
Local Abbreviation is_loud := (loud rms log config sample_width).
Local Abbreviation is_quiet := (quiet rms log config sample_width).
Local Abbreviation interval_sec := (record_interval_sec config).
Local Abbreviation cap := (max_recording_sec config).


(** X9.  The interval is counted in [config.chunk] frames per read, not in
    the bytes received: with a chunk of zero frames or less, and a positive
    number of frames per interval, no read ever completes an interval;
    nothing is yielded and every byte read piles up in the accumulator. *)
Theorem nonpositive_chunk_never_decides (reads : list (list byte))
  (s : loop_state) :
  chunk config <= 0 ->
  (0 < inject_Z (rate config) * interval_sec)%Q ->
  interval_frame_count s <= 0 ->
  run s reads =
  (with_accumulator s
     (interval_frame_count s + Z.of_nat (length reads) * chunk config)
     (interval_frames s ++ concat reads), []).
Proof.
  intros Hchunk Htarget. revert s.
  induction reads as [|r rs IH]; intros s Hcount.
  - simpl. unfold with_accumulator. rewrite app_nil_r, Z.add_0_r.
    now destruct s.
  - simpl run_loop. unfold recording_task_step.
    assert (Hnot : interval_due config (interval_frame_count s + chunk config)
                   = false).
    { unfold interval_due. destruct (Qle_bool _ _) eqn:E; [|reflexivity].
      apply Qle_bool_iff in E.
      assert (Hc : (inject_Z (interval_frame_count s + chunk config)
                    <= inject_Z 0)%Q) by (rewrite <- Zle_Qle; lia).
      change (inject_Z 0) with 0%Q in Hc.
      exfalso. apply (Qlt_irrefl 0).
      eapply Qlt_le_trans; [exact Htarget|].
      eapply Qle_trans; [exact E|exact Hc]. }
    rewrite Hnot. rewrite IH by (simpl; lia).
    unfold with_accumulator.
    cbn [interval_frame_count interval_frames speaking_frames
         last_interval_frames total_speaking_seconds status
         option_list app concat length].
    f_equal. f_equal; [rewrite Nat2Z.inj_succ; lia|].
    now rewrite <- app_assoc.
Qed.

End IntervalExtras.

(** * Further properties of the worker *)

Lemma puts_of_app {byte : Type} (es es' : list (event byte)) :
  puts_of (es ++ es') = puts_of es ++ puts_of es'.
Proof.
  induction es as [|e es IH]; simpl; [reflexivity|].
  destruct e; simpl; now rewrite IH.
Qed.

Section WorkerExtras.

Context {byte : Type}.
Variable rms : list byte -> Z -> Z.
Variable log : Q -> Q -> Q.
Variable config : RecordingConfig.
Variable get_sample_size : Z -> Z.

Local Abbreviation wstep := (worker_step rms log config get_sample_size).
Local Abbreviation wrun := (worker_run rms log config get_sample_size).
Local Abbreviation step :=
  (recording_task_step rms log config (get_sample_size (format config))).
Local Abbreviation run :=
  (run_loop rms log config (get_sample_size (format config))).

(** X10.  While the stream is active, the gate set and the queue has room,
    and no cancellation arrives, the worker stays in its session and puts on
    the queue exactly the utterances the loop yields on the bytes read, in
    the order they are yielded, each with the configured rate, format and
    channels; it opens and closes no stream meanwhile. *)
Theorem worker_publishes_what_the_loop_yields (ticks : list (tick byte)) :
  forall (w : worker_state) (s : loop_state),
    at_point w = AtRead s ->
    Forall smooth ticks ->
    let w' := fold_left wstep ticks w in
    at_point w' = AtRead (fst (run s (map (@in_data byte) ticks))) /\
    session w' = session w /\
    exists es,
      events w' = events w ++ es /\
      puts_of es =
        map (make_output config) (snd (run s (map (@in_data byte) ticks))) /\
      (forall m, open_count m es = 0%nat /\ close_count m es = 0%nat).
Proof.
  induction ticks as [|t ticks IH]; intros w s Hat Hall; cbv zeta.
  - simpl. split; [exact Hat|]. split; [reflexivity|].
    exists []. rewrite app_nil_r. repeat split.
  - inversion Hall as [|? ? (Hactive & Hcancel & Hgate & Hfull) Hrest]; subst.
    simpl fold_left. simpl map. simpl run_loop.
    assert (Hstep : wstep w t =
                    emit w (AtRead (fst (step s (in_data t))))
                      (read_events config (session w)
                         (snd (step s (in_data t))))).
    { unfold worker_step. rewrite Hat, Hactive, Hcancel. simpl.
      destruct (recording_task_step _ _ _ _ s (in_data t)) as [s1 [frames|]];
        [rewrite Hgate, Hfull|]; reflexivity. }
    rewrite Hstep.
    destruct (step s (in_data t)) as [s1 y]. simpl fst. simpl snd.
    specialize (IH (emit w (AtRead s1) (read_events config (session w) y)) s1
                  eq_refl Hrest).
    cbv zeta in IH. destruct IH as (Hat' & Hsess & es & Hev & Hputs & Hcount).
    destruct (run s1 (map (@in_data byte) ticks)) as [s2 ys].
    simpl in Hat', Hsess, Hev, Hputs |- *.
    split; [exact Hat'|]. split; [exact Hsess|].
    exists (read_events config (session w) y ++ es). split; [|split].
    + rewrite Hev. now rewrite <- app_assoc.
    + rewrite puts_of_app, Hputs, map_app. f_equal.
      destruct y; reflexivity.
    + intros m. rewrite open_count_app, close_count_app.
      destruct (Hcount m) as [-> ->].
      destruct y; split; reflexivity.
Qed.


(** The worker stays where it is while it waits with the gate cleared. *)
Lemma waiting_holds (ticks : list (tick byte)) (w : worker_state) :
  at_point w = AtWait ->
  Forall held ticks ->
  fold_left wstep ticks w = w.
Proof.
  intros Hat Hall. induction Hall as [|t ticks [Hcancel Hgate] _ IH]; simpl;
    [reflexivity|].
  unfold worker_step at 2. now rewrite Hat, Hcancel, Hgate.
Qed.

(** X12.  A pause keeps nothing of the session: while the gate stays
    cleared the waiting worker does nothing; once the gate is set and a
    device is found it opens the stream of the next session and starts the
    loop from its initial state, with an empty lookback, no utterance under
    way and the duration at zero. *)
Theorem resume_starts_a_fresh_session (w : worker_state)
  (ticks : list (tick byte)) (t_resume t_open : tick byte) :
  at_point w = AtWait ->
  Forall held ticks ->
  cancel_delivered t_resume = false ->
  resume_set t_resume = true ->
  device_found t_open = true ->
  fold_left wstep (ticks ++ [t_resume; t_open]) w =
  {| at_point := AtRead init_state;
     session := S (session w);
     events := events w ++ [EvOpen (S (session w))] |}.
Proof.
  intros Hat Hheld Hcancel Hgate Hfound.
  rewrite fold_left_app, (waiting_holds ticks w Hat Hheld).
  simpl. unfold worker_step at 2. rewrite Hat, Hcancel, Hgate.
  unfold worker_step. simpl. now rewrite Hfound.
Qed.

(** One turn puts at most one output on the queue, and only when the gate
    is set and the queue has room. *)
Lemma step_puts (w : worker_state) (t : tick byte) :
  (length (puts_of (events (wstep w t)))
   <= length (puts_of (events w))
      + (if resume_set t && negb (queue_full t) then 1 else 0))%nat.
Proof.
  unfold worker_step.
  destruct (at_point w) as [|s| |e];
    destruct (device_found t), (stream_active t), (cancel_delivered t),
      (resume_set t), (queue_full t); simpl;
    try (destruct (recording_task_step _ _ _ _ s (in_data t))
           as [s' [frames|]]; simpl);
    rewrite ?puts_of_app, ?length_app; simpl; lia.
Qed.

(** X13.  Nothing reaches the queue while the pipeline is paused: after any
    turns, the number of outputs put on the queue is at most the number of
    turns in which the gate was set and the queue had room. *)
Theorem puts_need_the_gate (ticks : list (tick byte)) :
  (length (puts_of (events (wrun ticks)))
   <= length (filter (fun t => resume_set t && negb (queue_full t)) ticks))%nat.
Proof.
  unfold worker_run.
  assert (H : forall (ts : list (tick byte)) (w : worker_state),
             (length (puts_of (events (fold_left wstep ts w)))
              <= length (puts_of (events w))
                 + length (filter
                             (fun t => resume_set t && negb (queue_full t))
                             ts))%nat).
  { induction ts as [|t ts IH]; intros w; simpl; [lia|].
    specialize (IH (wstep w t)). pose proof (step_puts w t) as Hs.
    destruct (resume_set t && negb (queue_full t)); simpl; lia. }
  specialize (H ticks worker_start). simpl in H. exact H.
Qed.

End WorkerExtras.

(** * The further properties on 16-bit PCM *)

Lemma count_up_nonneg (fuel : nat) (x base : Q) : 0 <= count_up fuel x base.
Proof.
  revert x. induction fuel as [|fuel IH]; intros x; cbn [count_up]; [lia|].
  destruct (Qle_bool 1 x); [lia|]. specialize (IH (x * base)%Q). lia.
Qed.

(** [floor_log] is not positive on the fractions of one. *)
Lemma floor_log_fraction (q : Q) :
  (0 < q)%Q -> (q <= 1)%Q -> (floor_log q 10 <= 0)%Q.
Proof.
  intros _ Hq1. unfold floor_log.
  destruct (Qle_bool 1 q) eqn:E.
  - simpl count_down.
    destruct (Qle_bool 10 q) eqn:E10.
    + apply Qle_bool_iff in E10. lra.
    + unfold inject_Z. lra.
  - pose proof (count_up_nonneg
                  (S (Z.to_nat (Z.log2 (Z.max (Qnum q) (Z.pos (Qden q))))))
                  q 10) as H.
    change 0%Q with (inject_Z 0). rewrite <- Zle_Qle. lia.
Qed.


Lemma waiting_witness :
  speaking_frames
    (fst (recording_task_loop audioop_rms floor_log (unit_config 5) 2
            [loud_read; quiet_read; quiet_read])) = [].
Proof.
  apply (waiting_holds_no_utterance audioop_rms floor_log (unit_config 5) 2
           [loud_read; quiet_read; quiet_read]).
  vm_compute. reflexivity.
Defined.

Lemma silence_witness :
  let (s, utts) :=
    recording_task_loop audioop_rms floor_log (unit_config 5) 2
      [read_of quiet_frame 1; read_of quiet_frame 3] in
  utts = [] /\
  status s = st_waiting /\
  speaking_frames s = [] /\
  total_speaking_seconds s = 0%Q.
Proof.
  apply (silence_never_yields floor_log (unit_config 5) 2
           [read_of quiet_frame 1; read_of quiet_frame 3]).
  repeat constructor.
Defined.

Lemma log_of_a_fraction_witness :
  get_dbfs audioop_rms floor_log (read_of loud_frame 3) 2 = NegInf \/
  exists q : Q,
    (0 < q)%Q /\ (q <= 1)%Q /\
    get_dbfs audioop_rms floor_log (read_of loud_frame 3) 2
    = Db (20 * floor_log q 10)%Q.
Proof.
  apply (get_dbfs_takes_log_of_a_fraction floor_log (read_of loud_frame 3) 2).
  lia.
Defined.

Lemma full_scale_threshold_witness :
  speaking_on audioop_rms floor_log full_scale_config 2 (read_of loud_frame 3)
  = false.
Proof.
  apply (threshold_at_full_scale_silences_all floor_log full_scale_config
           (read_of loud_frame 3) 2).
  - lia.
  - exact floor_log_fraction.
  - vm_compute. discriminate.
Defined.


Lemma deaf_witness :
  run_loop audioop_rms floor_log deaf_config 2 init_state
    [loud_read; loud_read] =
  (with_accumulator init_state
     (interval_frame_count (@init_state Byte.byte)
      + Z.of_nat (length [loud_read; loud_read]) * chunk deaf_config)
     (interval_frames (@init_state Byte.byte)
      ++ concat [loud_read; loud_read]), []).
Proof.
  apply (nonpositive_chunk_never_decides audioop_rms floor_log deaf_config 2
           [loud_read; loud_read] init_state).
  - vm_compute. discriminate.
  - vm_compute. reflexivity.
  - vm_compute. discriminate.
Defined.

Lemma publishing_witness :
  let w := pcm_worker (unit_config 5) [read_tick [] true false] in
  let ticks :=
    [read_tick loud_read true false; read_tick quiet_read true false;
     read_tick quiet_read true false] in
  let run :=
    run_loop audioop_rms floor_log (unit_config 5)
      (pcm_sample_size (format (unit_config 5))) init_state
      (map (@in_data Byte.byte) ticks) in
  let w' :=
    fold_left
      (worker_step audioop_rms floor_log (unit_config 5) pcm_sample_size)
      ticks w in
  at_point w' = AtRead (fst run) /\
  session w' = session w /\
  exists es,
    events w' = events w ++ es /\
    puts_of es = map (make_output (unit_config 5)) (snd run) /\
    (forall m, open_count m es = 0%nat /\ close_count m es = 0%nat).
Proof.
  apply (worker_publishes_what_the_loop_yields audioop_rms floor_log
           (unit_config 5) pcm_sample_size
           [read_tick loud_read true false; read_tick quiet_read true false;
            read_tick quiet_read true false]
           (pcm_worker (unit_config 5) [read_tick [] true false])
           init_state).
  - vm_compute. reflexivity.
  - repeat constructor.
Defined.

Lemma resume_witness :
  let w := pcm_worker (unit_config 5) [read_tick [] true false; inactive_tick] in
  fold_left (worker_step audioop_rms floor_log (unit_config 5) pcm_sample_size)
    ([inactive_tick] ++ [read_tick [] true false; read_tick [] true false]) w =
  {| at_point := AtRead init_state;
     session := S (session w);
     events := events w ++ [EvOpen (S (session w))] |}.
Proof.
  apply (resume_starts_a_fresh_session audioop_rms floor_log (unit_config 5)
           pcm_sample_size
           (pcm_worker (unit_config 5) [read_tick [] true false; inactive_tick])
           [inactive_tick] (read_tick [] true false) (read_tick [] true false)).
  - vm_compute. reflexivity.
  - repeat constructor.
  - reflexivity.
  - reflexivity.
  - reflexivity.
Defined.
